(** * DiscordTrelloWatch: the watch registry, the interval controller and the
      poll loop of [main.py], embedded as Rocq functions.

    Conventions of the embedding.
    - Python [str] values are [string]s; [str.lower] is modelled on the ASCII
      letters (other bytes are left alone).
    - [float] seconds, [datetime] instants and [timedelta] durations are
      rationals ([Q], seconds); rounding of floats and of [timedelta] to
      microseconds is not modelled.
    - [bot_config.channels], a [dict] from channel ids to [set]s of boards,
      is an association list in insertion order, the order in which
      [dict.items()] iterates; a [set] is a duplicate free list in the order
      in which it is iterated.
    - What the program receives from outside (HTTP answers, clock readings,
      commands handled while the poll loop is suspended in an [await]) is an
      explicit argument of the function that consumes it. *)

From Stdlib Require Import List String Ascii Bool ZArith QArith Qminmax Lia Lqa ListSet
  Finite Permutation.
Import ListNotations.

Local Open Scope string_scope.
Local Open Scope Z_scope.

(** ** Strings: [str.lower] and the search for the board pattern

    The pattern of [main.py] is: the two characters b and slash, a group
    made of a greedy dot-star, and a slash. *)

Module Str.

Definition lower_ascii (c : ascii) : ascii :=
  let n := nat_of_ascii c in
  if (Nat.leb 65 n && Nat.leb n 90)%bool then ascii_of_nat (n + 32) else c.

Fixpoint lower (s : string) : string :=
  match s with
  | EmptyString => EmptyString
  | String c r => String (lower_ascii c) (lower r)
  end.

Definition newline : ascii := ascii_of_nat 10.
Definition slash : ascii := "/"%char.

(** The longest prefix of [s] that a dot-star can match: the dot matches
    every character but the line feed. *)
Fixpoint dot_star (s : string) : string :=
  match s with
  | EmptyString => EmptyString
  | String c r => if Ascii.eqb c newline then EmptyString else String c (dot_star r)
  end.

(** [upto_last_slash t]: the greedy group followed by a slash inside the
    run [t]: the group is what precedes the LAST slash of [t]; [None] when
    [t] holds no slash. *)
Fixpoint upto_last_slash (t : string) : option string :=
  match t with
  | EmptyString => None
  | String c r =>
      match upto_last_slash r with
      | Some g => Some (String c g)
      | None => if Ascii.eqb c slash then Some EmptyString else None
      end
  end.

(** The pattern anchored at the head of [s]; the result is [group(1)]. *)
Definition match_here (s : string) : option string :=
  match s with
  | String c1 (String c2 r) =>
      if (Ascii.eqb c1 "b"%char && Ascii.eqb c2 slash)%bool
      then upto_last_slash (dot_star r)
      else None
  | _ => None
  end.

(** [re.search(pattern, s)]: the leftmost position where the pattern
    matches; [Some g] is a match object with [group(1) = g], [None] is
    the [None] of Python. *)
Fixpoint re_search (s : string) : option string :=
  match s with
  | EmptyString => None
  | String c r =>
      match match_here s with
      | Some g => Some g
      | None => re_search r
      end
  end.

End Str.

(** ** The configuration object *)

(** [tuple[str, str]]: [board[0]] is the name, [board[1]] the URL. *)
Definition Board : Type := string * string.
Definition WatchSet : Type := list Board.
Definition Channels : Type := list (Z * WatchSet).

Definition Board_eq_dec : forall a b : Board, {a = b} + {a <> b}.
Proof. decide equality; apply string_dec. Defined.

Record Config : Type := mkConfig {
  refresh_interval : Q;
  prev_refresh_interval : Q;
  channels : Channels
}.

(** [bot_config = Config(3600, 3600, dict())] *)
Definition initial_config : Config := mkConfig 3600 3600 [].

Module Dict.

(** [d.get(k)] *)
Fixpoint get (d : Channels) (k : Z) : option WatchSet :=
  match d with
  | [] => None
  | (k', v) :: rest => if Z.eqb k' k then Some v else get rest k
  end.

(** [d[k] = v]: an existing key keeps its place, a new key goes last. *)
Fixpoint set (d : Channels) (k : Z) (v : WatchSet) : Channels :=
  match d with
  | [] => [(k, v)]
  | (k', v') :: rest =>
      if Z.eqb k' k then (k', v) :: rest else (k', v') :: set rest k v
  end.

End Dict.

(** ** Command handlers *)

(** The text a handler passes to [ctx.respond], by case. *)
Inductive Response : Type :=
| IncorrectBoardURL
| AlreadyWatched (channel_id : Z)
| LookupFailed (traceback : string)
| AddedBoard (name board_url : string)
| AllWatchesDeleted
| IntervalSet (minutes : Q).

(** What [await get_board(board_id)] does: it returns the board's JSON (of
    which only [name] is read), raises [aiohttp.ClientResponseError] (then
    [format_exc()] is the text given), or raises something else, which
    [watch_board] does not catch. *)
Inductive Lookup : Type :=
| BoardInfo (name : string)
| ClientResponseError (format_exc : string)
| OtherError.

(** [reset_bot] *)
Definition reset_bot (c : Config) : Config * Response :=
  (mkConfig 3600 (prev_refresh_interval c) [], AllWatchesDeleted).

(** [set_refresh_interval] *)
Definition set_refresh_interval (minutes : Q) (c : Config) : Config * Response :=
  (mkConfig (minutes * 60)%Q (prev_refresh_interval c) (channels c),
   IntervalSet minutes).

(** [board[1].lower() == board_url.lower()] *)
Definition same_url (board_url : string) (board : Board) : bool :=
  String.eqb (Str.lower (snd board)) (Str.lower board_url).

(** The two nested loops of [watch_board] over [bot_config.channels.items()]:
    the first channel, in iteration order, that holds a board whose URL
    equals [board_url] once both are lower-cased. *)
Fixpoint find_watching (d : Channels) (board_url : string) : option Z :=
  match d with
  | [] => None
  | (channel_id, list_of_boards) :: rest =>
      if existsb (same_url board_url) list_of_boards
      then Some channel_id
      else find_watching rest board_url
  end.

(** The last statements of [watch_board], after [get_board] has returned:
    [channels.get] yields a non-empty set (truthy) and the board is added to
    it, or the channel's entry is (re)bound to a one-element set. The list
    holds the new board last; a Python set iterates in hash order, so the
    position stands for an order the program does not fix, and the
    properties of the registry are stated up to the order within a set. *)
Definition register_board (channel_id : Z) (board : Board) (d : Channels) : Channels :=
  match Dict.get d channel_id with
  | Some (b :: bs) => Dict.set d channel_id (set_add Board_eq_dec board (b :: bs))
  | _ => Dict.set d channel_id [board]
  end.

(** [watch_board] from the [try] on: it runs on the configuration as it is
    when [get_board] completes. [None] as response: the handler died of an
    exception it does not catch. *)
Definition watch_board_finish (channel_id : Z) (board_url : string)
    (lk : Lookup) (c : Config) : Config * option Response :=
  match lk with
  | BoardInfo name =>
      (mkConfig (refresh_interval c) (prev_refresh_interval c)
                (register_board channel_id (name, board_url) (channels c)),
       Some (AddedBoard name board_url))
  | ClientResponseError text => (c, Some (LookupFailed text))
  | OtherError => (c, None)
  end.

(** [watch_board], with no other handler running during its [await]s.
    [get_board] is the outside world: the answer to a lookup of a board
    identifier. *)
Definition watch_board (get_board : string -> Lookup) (channel_id : Z)
    (board_url : string) (c : Config) : Config * option Response :=
  match Str.re_search board_url with
  | None => (c, Some IncorrectBoardURL)
  | Some board_id =>
      match find_watching (channels c) board_url with
      | Some owner => (c, Some (AlreadyWatched owner))
      | None => watch_board_finish channel_id board_url (get_board board_id) c
      end
  end.

(** [list_boards]: the channels reported with [all_boards=True] and the
    boards reported for one channel (the empty list: the answer that no
    boards are being watched). *)
Definition list_boards_all (c : Config) : list (Z * list string) :=
  map (fun '(channel_id, list_of_boards) => (channel_id, map fst list_of_boards))
      (channels c).

Definition list_boards_here (channel_id : Z) (c : Config) : list string :=
  match Dict.get (channels c) channel_id with
  | Some list_of_boards => map fst list_of_boards
  | None => []
  end.

(** ** The poll loop, [check_trello_activity] *)

(** One element of the JSON list a board's [/actions] query returns:
    [action['date']] as an instant and [action['data']['card']['shortLink']]. *)
Record Action : Type := mkAction {
  date : Q;
  shortLink : string
}.

(** [bot.rest.create_message(channel, content)]: the two kinds of content. *)
Inductive Message : Type :=
| Header (since : Q)
| CardLink (card : string).

(** Handlers that may run while the loop is suspended in an [await] without
    touching the dict the loop iterates over: [set_refresh_interval] writes
    one field, [reset_bot] rebinds [bot_config.channels] to a fresh dict and
    the loop keeps iterating over the old one. A [watch_board] that
    registers a board meanwhile mutates the dict or a set the loop iterates
    over: the loop then dies of [RuntimeError] or visits the new board. That
    interleaving is left out of this model, so a statement over every
    [World] speaks of the cycles during which no board is registered. *)
Inductive MidCycle : Type :=
| McSetInterval (minutes : Q)
| McReset.

Definition run_mid (m : MidCycle) (c : Config) : Config :=
  match m with
  | McSetInterval minutes => fst (set_refresh_interval minutes c)
  | McReset => fst (reset_bot c)
  end.

Definition run_mids (ms : list MidCycle) (c : Config) : Config :=
  fold_left (fun c m => run_mid m c) ms c.

(** Everything the outside world contributes to the check of one board. *)
Record BoardIO : Type := mkBoardIO {
  (** handlers run while the loop awaits [session.get] and [resp.json] *)
  during_fetch : list MidCycle;
  (** [resp.status] *)
  status : Z;
  (** [board_actions], each action with the value [datetime.utcnow()]
      returns when the loop body reaches it *)
  board_actions : list (Q * Action);
  (** [datetime.now()] when the header message is built *)
  header_now : Q;
  (** handlers run while the loop awaits [create_message] and [sleep(1)] *)
  during_send : list MidCycle
}.

(** The answers of the outside world, by request number within the cycle. *)
Definition World : Type := nat -> BoardIO.

(** The state of one pass of the [while True] body. *)
Record Cycle : Type := mkCycle {
  cfg : Config;
  drift_time : Z;
  sent : list (Z * Message);
  requested : list string
}.

(** The exception of the loop that is modelled: [re.search] returned [None]
    and [group] is called on it. The loop can also die of a [RuntimeError]
    (see [MidCycle]), of an [OverflowError] of [timedelta] or of the sum with
    [datetime.now()] for intervals beyond their range, and of the error
    [resp.json()] raises on a body that is not JSON; these are outside the
    model. *)
Inductive Exn : Type :=
| AttributeError.

(** A computation that returns or raises. *)

Inductive Outcome (A : Type) : Type :=
| Done (a : A)
| Raised (e : Exn).
Arguments Done {A} a.
Arguments Raised {A} e.

Definition bind {A B : Type} (o : Outcome A) (k : A -> Outcome B) : Outcome B :=
  match o with
  | Done a => k a
  | Raised e => Raised e
  end.

Notation "x <- o ;; k" := (bind o (fun x => k))
  (at level 61, o at next level, right associativity).

Definition card_url (a : Action) : string :=
  "https://trello.com/c/" ++ shortLink a.

(** [diff <= timedelta(seconds=bot_config.prev_refresh_interval)] with
    [diff = datetime.utcnow() - action_time] *)
Definition in_window (c : Config) (now : Q) (a : Action) : bool :=
  Qle_bool (now - date a) (prev_refresh_interval c).

(** The [for action in board_actions] loop: [cards.add] for the actions in
    the window. No [await] occurs inside it. *)
Fixpoint collect_cards (c : Config) (actions : list (Q * Action))
    (cards : list string) : list string :=
  match actions with
  | [] => cards
  | (now, a) :: rest =>
      collect_cards c rest
        (if in_window c now a then set_add string_dec (card_url a) cards else cards)
  end.

Definition send (channel : Z) (m : Message) (s : Cycle) : Cycle :=
  mkCycle (cfg s) (drift_time s) (sent s ++ [(channel, m)]) (requested s).

(** [if cards: ...] and [for card in cards: ...] *)
Definition notify (channel : Z) (io : BoardIO) (cards : list string) (s : Cycle) : Cycle :=
  let s1 :=
    match cards with
    | [] => s
    | _ :: _ =>
        let s' := send channel (Header (header_now io - prev_refresh_interval (cfg s))%Q) s in
        mkCycle (cfg s') (Z.of_nat (List.length cards) + 1) (sent s') (requested s')
    end in
  fold_left (fun s card => send channel (CardLink card) s) cards s1.

Definition with_cfg (f : Config -> Config) (s : Cycle) : Cycle :=
  mkCycle (f (cfg s)) (drift_time s) (sent s) (requested s).

Definition request (board_id : string) (s : Cycle) : Cycle :=
  mkCycle (cfg s) (drift_time s) (sent s) (requested s ++ [board_id]).

(** The body of [for board in list_of_boards] once the board's identifier is
    known; the boolean tells whether the loop goes on ([false]: [break]).
    [await resp.json()], which precedes the test of the status, is taken to
    return: the answers of the model have a JSON body. *)
Definition check_board (channel : Z) (board_id : string) (io : BoardIO)
    (s : Cycle) : Cycle * bool :=
  let s := with_cfg (run_mids (during_fetch io)) (request board_id s) in
  if negb (status io =? 200) then (s, false)
  else
    let cards := collect_cards (cfg s) (board_actions io) [] in
    (with_cfg (run_mids (during_send io)) (notify channel io cards s), true).

(** [for board in list_of_boards] *)
Fixpoint check_boards (w : World) (channel : Z) (list_of_boards : list Board)
    (s : Cycle) : Outcome Cycle :=
  match list_of_boards with
  | [] => Done s
  | board :: rest =>
      match Str.re_search (snd board) with
      | None => Raised AttributeError
      | Some board_id =>
          let (s', go_on) := check_board channel board_id (w (List.length (requested s))) s in
          if go_on then check_boards w channel rest s' else Done s'
      end
  end.

(** [for channel, list_of_boards in bot_config.channels.items()] *)
Fixpoint check_channels (w : World) (items : Channels) (s : Cycle) : Outcome Cycle :=
  match items with
  | [] => Done s
  | (channel, list_of_boards) :: rest =>
      s' <- check_boards w channel list_of_boards s ;;
      check_channels w rest s'
  end.

(** [bot_config.prev_refresh_interval = bot_config.refresh_interval] *)
Definition commit_cycle (c : Config) : Config :=
  mkConfig (refresh_interval c) (refresh_interval c) (channels c).

(** What one pass of the [while True] body leaves behind: the configuration,
    the messages sent, the boards queried, the final [drift_time] and the
    argument of the closing [asyncio.sleep]. *)
Record CycleEnd : Type := mkCycleEnd {
  config_after : Config;
  messages : list (Z * Message);
  queried : list string;
  drift : Z;
  sleep_arg : Q
}.

Definition poll_cycle (w : World) (c : Config) : Outcome CycleEnd :=
  s <- check_channels w (channels c) (mkCycle c 0 [] []) ;;
  let c' := commit_cycle (cfg s) in
  Done (mkCycleEnd c' (sent s) (requested s) (drift_time s)
          (refresh_interval c' - inject_Z (drift_time s))%Q).

(** A world in which no handler runs during the cycle. *)
Definition quiet (io : BoardIO) : BoardIO :=
  mkBoardIO [] (status io) (board_actions io) (header_now io) [].

(** * Vocabulary of the properties *)

(** A string without a line feed. *)
Fixpoint one_line (s : string) : bool :=
  match s with
  | EmptyString => true
  | String c r => negb (Ascii.eqb c Str.newline) && one_line r
  end.

(** [pre], then the characters b and slash, then [g], then a slash, then
    [post]. *)
Definition segment (pre g post : string) : string :=
  pre ++ "b/" ++ g ++ "/" ++ post.

(** The link messages for a set of cards. *)
Definition card_messages (channel : Z) (cards : list string) : list (Z * Message) :=
  map (fun card => (channel, CardLink card)) cards.

(** The messages the check of one answered board adds to the cycle. *)
Definition board_messages (channel : Z) (io : BoardIO) (c : Config) : list (Z * Message) :=
  let cards := collect_cards c (board_actions io) [] in
  match cards with
  | [] => []
  | _ :: _ => (channel, Header (header_now io - prev_refresh_interval c)%Q)
              :: card_messages channel cards
  end.

(** The permanent URL of card [k]. *)
Definition url_of_card (k : string) : string := "https://trello.com/c/" ++ k.

(** The actions of a response that fall in the window of [c]. *)
Definition kept (c : Config) (actions : list (Q * Action)) : list (Q * Action) :=
  filter (fun x => in_window c (fst x) (snd x)) actions.

(** Does a kept action bear on card [k]? *)
Definition qualifies (c : Config) (k : string) (actions : list (Q * Action)) : bool :=
  existsb (fun x => String.eqb (shortLink (snd x)) k) (kept c actions).

(** How many of the messages [ms] are the link of card [k]. *)
Definition links_to (k : string) (ms : list (Z * Message)) : nat :=
  List.length
    (filter (fun m => match snd m with
                      | CardLink u => String.eqb u (url_of_card k)
                      | Header _ => false
                      end) ms).

(** Is the message a card link? *)
Definition is_link (m : Z * Message) : bool :=
  match snd m with CardLink _ => true | Header _ => false end.

(** Two loop states that differ at most in the fields the handlers write. *)
Definition same_obs (s t : Cycle) : Prop :=
  prev_refresh_interval (cfg s) = prev_refresh_interval (cfg t) /\
  drift_time s = drift_time t /\ sent s = sent t /\ requested s = requested t.

(** Two runs of a loop that end alike. *)
Definition same_outcome (o p : Outcome Cycle) : Prop :=
  match o, p with
  | Done s, Done t => same_obs s t
  | Raised e, Raised e' => e = e'
  | _, _ => False
  end.

(** The observable part of a finished cycle. *)
Definition same_report (o p : Outcome CycleEnd) : Prop :=
  match o, p with
  | Done e, Done e' =>
      messages e = messages e' /\ queried e = queried e' /\ drift e = drift e'
  | Raised x, Raised x' => x = x'
  | _, _ => False
  end.

(** Channel [owner] holds a board whose URL is [board_url] up to case. *)
Definition watches (d : Channels) (owner : Z) (board_url : string) : Prop :=
  exists list_of_boards board,
    In (owner, list_of_boards) d /\ In board list_of_boards /\
    Str.lower (snd board) = Str.lower board_url.

(** No channel is mapped to an empty set. *)
Definition no_empty_set (d : Channels) : Prop :=
  Forall (fun item => snd item <> []) d.

(** One handler, or the tail of one, or one pass of the poll loop, run from
    a configuration. [step_watch_late] is the tail of a [watch_board] whose
    [get_board] completes after other handlers have run. *)
Inductive step : Config -> Config -> Prop :=
| step_reset c :
    step c (fst (reset_bot c))
| step_interval c minutes :
    step c (fst (set_refresh_interval minutes c))
| step_watch c get_board channel_id board_url :
    step c (fst (watch_board get_board channel_id board_url c))
| step_watch_late c channel_id board_url lk :
    Str.re_search board_url <> None ->
    step c (fst (watch_board_finish channel_id board_url lk c))
| step_cycle c w e :
    poll_cycle w c = Done e ->
    step c (config_after e).

(** What can be reached from the configuration the process starts with. *)
Inductive reachable : Config -> Prop :=
| reach_init : reachable initial_config
| reach_step c c' : reachable c -> step c c' -> reachable c'.

(** * Concrete configurations and worlds *)

Module Scenario.

(** A lookup service that knows every board under one name. *)
Definition roadmap (board_id : string) : Lookup := BoardInfo "Roadmap".

(** A lookup service that knows the board [ABC123] only. *)
Definition only_ABC123 (board_id : string) : Lookup :=
  if String.eqb board_id "ABC123" then BoardInfo "Roadmap"
  else ClientResponseError "404, message='Not Found'".

Definition watch (channel_id : Z) (board_url : string) (c : Config) : Config :=
  fst (watch_board roadmap channel_id board_url c).

(** Channel 1 watches one board. *)
Definition one_board : Config :=
  watch 1 "https://trello.com/b/abc/x" initial_config.

(** Channel 1 watches two boards. *)
Definition two_boards : Config :=
  watch 1 "https://trello.com/b/BBB/second"
    (watch 1 "https://trello.com/b/AAA/first" initial_config).

(** Channel 1 watches two boards, channel 2 a third one. *)
Definition three_boards : Config :=
  watch 2 "https://trello.com/b/CCC/third" two_boards.

(** An answer with status 200 and the given actions, all read at instant
    1000. *)
Definition answer (actions : list Action) : BoardIO :=
  mkBoardIO [] 200 (map (fun a => (1000%Q, a)) actions) 1000 [].

(** Every query is answered with one fresh action on one card. *)
Definition one_card_each : World :=
  fun n => answer [mkAction 990 "card1"].

(** The first query of the cycle is answered with status 500, the others as
    in [one_card_each]. *)
Definition first_query_fails : World :=
  fun n => match n with
           | O => mkBoardIO [] 500 [] 1000 []
           | S _ => answer [mkAction 990 "card1"]
           end.

(** Every query is answered with fresh actions on three cards. *)
Definition three_cards_each : World :=
  fun n => answer [mkAction 990 "card1"; mkAction 991 "card2"; mkAction 992 "card3"].

(** One answer with two actions on the same card, 10 and 20 seconds old. *)
Definition same_card_twice : BoardIO :=
  answer [mkAction 990 "card1"; mkAction 980 "card1"].

(** [one_board] after [set_refresh_interval(0.05)]: a 3 second interval. *)
Definition short_interval : Config :=
  fst (set_refresh_interval (1 # 20) one_board).

(** [initial_config] after [set_refresh_interval(1)]. *)
Definition one_minute : Config :=
  fst (set_refresh_interval 1 initial_config).

End Scenario.

(** * More of [main.py] *)

(** ** The text of [list_boards] *)

Module Text.

(** The line feed as a string. *)
Definition nl : string := String Str.newline EmptyString.

(** [sep.join(items)] *)
Fixpoint join (sep : string) (items : list string) : string :=
  match items with
  | [] => EmptyString
  | [x] => x
  | x :: rest => x ++ sep ++ join sep rest
  end.

(** The inner loop of [list_boards]: one line per board of a channel. *)
Definition board_lines (summary : string) (list_of_boards : WatchSet) : string :=
  fold_left (fun summary board => summary ++ "- " ++ fst board ++ nl)
            list_of_boards summary.

(** The outer loop of [list_boards]: per channel its name between the
    marks, its boards and an empty line. [channel_name] stands for
    [ctx.guild.get_channel(channel_id).name]. *)
Definition channel_blocks (channel_name : Z -> string) (summary : string)
    (items : Channels) : string :=
  fold_left (fun summary item =>
               board_lines (summary ++ "**#" ++ channel_name (fst item) ++ "**" ++ nl)
                           (snd item) ++ nl)
            items summary.

Definition no_boards : string := "No boards are being watched in current channel.".

(** [list_boards]: the text passed to [ctx.respond]. *)
Definition list_boards (channel_name : Z -> string) (ctx_channel_id : Z)
    (all_boards : bool) (c : Config) : string :=
  if all_boards then
    "Currently watching" ++ nl ++ channel_blocks channel_name EmptyString (channels c)
  else
    match Dict.get (channels c) ctx_channel_id with
    | Some (b :: bs) =>
        "Following boards are being watched in current channel" ++ nl ++
        join nl (map (fun x => "- " ++ fst x) (b :: bs))
    | _ => no_boards
    end.

End Text.

(** ** Vocabulary of the further properties *)

(** The boards of the registry, channel after channel. *)
Definition all_boards (d : Channels) : list Board := flat_map snd d.

(** The lower-cased URLs of the registry. *)
Definition lowered_urls (d : Channels) : list string :=
  map (fun board => Str.lower (snd board)) (all_boards d).

(** Every stored URL passes the pattern search. *)
Definition all_parse (d : Channels) : Prop :=
  Forall (fun board => Str.re_search (snd board) <> None) (all_boards d).

(** The identifiers the poll loop computes for a set of boards. *)
Definition ids_of (boards : list Board) : list string :=
  flat_map (fun board => match Str.re_search (snd board) with
                         | Some board_id => [board_id]
                         | None => []
                         end) boards.

(** A string without a slash. *)
Fixpoint no_slash (s : string) : bool :=
  match s with
  | EmptyString => true
  | String c r => negb (Ascii.eqb c Str.slash) && no_slash r
  end.

(** Handlers that run to their end before another one starts, and poll
    cycles. *)
Inductive atomic_step : Config -> Config -> Prop :=
| atomic_reset c :
    atomic_step c (fst (reset_bot c))
| atomic_interval c minutes :
    atomic_step c (fst (set_refresh_interval minutes c))
| atomic_watch c get_board channel_id board_url :
    atomic_step c (fst (watch_board get_board channel_id board_url c))
| atomic_cycle c w e :
    poll_cycle w c = Done e ->
    atomic_step c (config_after e).

Inductive atomic_reachable : Config -> Prop :=
| atomic_init : atomic_reachable initial_config
| atomic_next c c' : atomic_reachable c -> atomic_step c c' -> atomic_reachable c'.

(** What a message of a cycle that started with window [p] in world [w] may
    be: a header naming the window start of some answered query, or the link
    of a card with an action in the window of some answered query. *)
Definition justified (w : World) (p : Q) (m : Message) : Prop :=
  match m with
  | Header since =>
      exists n, status (w n) = 200 /\ since = (header_now (w n) - p)%Q
  | CardLink u =>
      exists n now a,
        status (w n) = 200 /\ In (now, a) (board_actions (w n)) /\
        card_url a = u /\ (now - p <= date a)%Q
  end.

(** What the check of one board leaves, spelled out. *)
Definition checked (channel : Z) (board_id : string) (io : BoardIO) (s : Cycle) : Cycle :=
  let c1 := run_mids (during_fetch io) (cfg s) in
  if status io =? 200 then
    mkCycle (run_mids (during_send io) c1)
            (match collect_cards c1 (board_actions io) [] with
             | [] => drift_time s
             | cards => Z.of_nat (List.length cards) + 1
             end)
            (sent s ++ board_messages channel io c1)
            (requested s ++ [board_id])
  else
    mkCycle c1 (drift_time s) (sent s) (requested s ++ [board_id]).

(** ** The window across a cycle, and the closing sleep *)

(** Card URL [u] belongs to an action that one of the first [k] queries of a
    cycle in world [w], answered with status 200, lists, and that is no older
    than [p] at the clock reading it met. *)
Definition reported_in_window (w : World) (p : Q) (k : nat) (u : string) : Prop :=
  exists n now a,
    (n < k)%nat /\ status (w n) = 200 /\ In (now, a) (board_actions (w n)) /\
    card_url a = u /\ (now - p <= date a)%Q.

(** What the loop state says of the window [p] the cycle started with. *)
Definition window_kept (w : World) (p : Q) (s : Cycle) : Prop :=
  prev_refresh_interval (cfg s) = p /\
  (forall u, (exists channel, In (channel, CardLink u) (sent s)) <->
             reported_in_window w p (List.length (requested s)) u) /\
  (forall channel since, In (channel, Header since) (sent s) ->
     exists n, (n < List.length (requested s))%nat /\ status (w n) = 200 /\
               since = (header_now (w n) - p)%Q).

(** [asyncio.sleep(delay)] of the Python standard library, as the time the
    caller stays suspended: with a delay of 0 or less it returns at once. *)
Definition asyncio_sleep (delay : Q) : Q :=
  if Qle_bool delay 0 then 0%Q else delay.

(** The time the poll loop stays suspended in the [asyncio.sleep] that
    closes a cycle. *)
Definition slept (e : CycleEnd) : Q := asyncio_sleep (sleep_arg e).

(** A world in which [set_refresh_interval] with 5 seconds is handled while
    the loop awaits its query, and the answer lists one action that is 1000
    seconds old. *)
Definition shortened_mid_cycle : World :=
  fun n => mkBoardIO [McSetInterval (1 # 12)] 200 [(1000%Q, mkAction 0 "old")] 1000 [].

(** * Properties *)

(** ** The pattern search

    [Str.re_search] finds a group exactly in the strings that hold the
    characters b and slash, a run without line feed, and a slash. *)

Module StrFacts.
Import Str.

Lemma append_assoc (a b c : string) : (a ++ b) ++ c = a ++ b ++ c.
Proof. induction a as [|x a IH]; simpl; [reflexivity | rewrite IH; reflexivity]. Qed.

Lemma dot_star_prefix (s : string) : exists rest, s = dot_star s ++ rest.
Proof.
  induction s as [|c r [rest IH]]; simpl.
  - exists "". reflexivity.
  - destruct (Ascii.eqb c newline).
    + exists (String c r). reflexivity.
    + exists rest. simpl. rewrite <- IH. reflexivity.
Qed.

Lemma dot_star_one_line (s : string) : one_line (dot_star s) = true.
Proof.
  induction s as [|c r IH]; simpl; [reflexivity|].
  destruct (Ascii.eqb c newline) eqn:E; simpl; [reflexivity|].
  rewrite E. exact IH.
Qed.

Lemma dot_star_app (g r : string) :
  one_line g = true -> dot_star (g ++ r) = g ++ dot_star r.
Proof.
  induction g as [|c g IH]; simpl; [reflexivity|].
  destruct (Ascii.eqb c newline); simpl; [discriminate|].
  intros H. rewrite (IH H). reflexivity.
Qed.

Lemma upto_last_slash_sound (t g : string) :
  upto_last_slash t = Some g ->
  (exists post, t = g ++ String slash post) /\ (one_line t = true -> one_line g = true).
Proof.
  revert g. induction t as [|c r IH]; intros g; simpl; [discriminate|].
  destruct (upto_last_slash r) as [g'|].
  - intros [= <-]. destruct (IH g' eq_refl) as [[post E] L]. split.
    + exists post. simpl. rewrite <- E. reflexivity.
    + simpl. intros H. apply andb_true_iff in H. destruct H as [H1 H2].
      rewrite H1, (L H2). reflexivity.
  - destruct (Ascii.eqb_spec c slash) as [-> | _]; [|discriminate].
    intros [= <-]. split; [exists r; reflexivity | reflexivity].
Qed.

Lemma upto_last_slash_complete (a x : string) :
  upto_last_slash (a ++ String slash x) <> None.
Proof.
  induction a as [|c a IH]; simpl.
  - destruct (upto_last_slash x); discriminate.
  - destruct (upto_last_slash (a ++ String slash x)); [discriminate | contradiction].
Qed.

Lemma match_here_sound (s g : string) :
  match_here s = Some g ->
  one_line g = true /\ exists post, s = segment "" g post.
Proof.
  destruct s as [|c1 [|c2 r]]; simpl; try discriminate.
  destruct (Ascii.eqb_spec c1 "b"%char) as [-> | _]; [|discriminate].
  destruct (Ascii.eqb_spec c2 slash) as [-> | _]; [|discriminate].
  simpl. intros H. apply upto_last_slash_sound in H. destruct H as [[post E] L].
  split; [apply L, dot_star_one_line|].
  destruct (dot_star_prefix r) as [rest R].
  exists (post ++ rest). unfold segment. simpl. do 2 f_equal.
  rewrite R at 1. rewrite E. rewrite append_assoc. reflexivity.
Qed.

Lemma re_search_sound (s g : string) :
  re_search s = Some g ->
  one_line g = true /\ exists pre post, s = segment pre g post.
Proof.
  induction s as [|c r IH]; [discriminate|].
  cbn [re_search]. destruct (match_here (String c r)) as [g'|] eqn:M.
  - intros [= <-]. apply match_here_sound in M. destruct M as [L [post E]].
    split; [exact L|]. exists "", post. exact E.
  - intros H. destruct (IH H) as [L (pre & post & E)].
    split; [exact L|]. exists (String c pre), post. unfold segment in *. simpl.
    rewrite E. reflexivity.
Qed.

Lemma re_search_complete (pre g post : string) :
  one_line g = true -> re_search (segment pre g post) <> None.
Proof.
  intros L. induction pre as [|c pre IH].
  - pose proof (upto_last_slash_complete g (dot_star post)) as U.
    unfold segment. cbn [append re_search match_here].
    change (Ascii.eqb "b" "b" && Ascii.eqb "/" slash)%bool with true. cbv iota.
    change (String "/" post) with (String slash post).
    rewrite (dot_star_app g _ L). cbn [dot_star].
    change (Ascii.eqb slash newline) with false. cbv iota.
    destruct (upto_last_slash (g ++ String slash (dot_star post)));
      [discriminate | contradiction].
  - unfold segment in *. cbn [append re_search].
    destruct (match_here _); [discriminate | exact IH].
Qed.

(** The search fails exactly on the strings that hold no such segment. *)
Lemma re_search_None_iff (s : string) :
  re_search s = None <->
  forall pre g post, one_line g = true -> s <> segment pre g post.
Proof.
  split.
  - intros H pre g post L E. subst s. exact (re_search_complete pre g post L H).
  - intros H. destruct (re_search s) as [g|] eqn:E; [|reflexivity].
    apply re_search_sound in E. destruct E as [L (pre & post & E)].
    destruct (H pre g post L E).
Qed.

End StrFacts.

(** ** The window of the cycle in flight *)

Lemma run_mid_prev (m : MidCycle) (c : Config) :
  prev_refresh_interval (run_mid m c) = prev_refresh_interval c.
Proof. destruct m; reflexivity. Qed.

Lemma run_mids_prev (ms : list MidCycle) (c : Config) :
  prev_refresh_interval (run_mids ms c) = prev_refresh_interval c.
Proof.
  revert c. induction ms as [|m ms IH]; intros c; simpl.
  - reflexivity.
  - unfold run_mids in IH. rewrite IH. apply run_mid_prev.
Qed.

Lemma in_window_spec (c : Config) (now : Q) (a : Action) :
  in_window c now a = true <-> (now - prev_refresh_interval c <= date a)%Q.
Proof.
  unfold in_window. rewrite Qle_bool_iff. split; intros H; lra.
Qed.

Lemma collect_cards_prev (c c' : Config) (actions : list (Q * Action)) :
  prev_refresh_interval c = prev_refresh_interval c' ->
  forall cards, collect_cards c actions cards = collect_cards c' actions cards.
Proof.
  intros E. induction actions as [|[now a] rest IH]; intros cards; simpl.
  - reflexivity.
  - unfold in_window. rewrite E. apply IH.
Qed.

(** ** What [notify] sends *)

Lemma send_cards (channel : Z) (cards : list string) (s : Cycle) :
  fold_left (fun s card => send channel (CardLink card) s) cards s =
  mkCycle (cfg s) (drift_time s) (sent s ++ card_messages channel cards) (requested s).
Proof.
  revert s. induction cards as [|card cards IH]; intros s; simpl.
  - rewrite app_nil_r. destruct s; reflexivity.
  - rewrite IH. simpl. rewrite <- app_assoc. reflexivity.
Qed.

Lemma notify_eq (channel : Z) (io : BoardIO) (cards : list string) (s : Cycle) :
  notify channel io cards s =
  match cards with
  | [] => s
  | _ :: _ =>
      mkCycle (cfg s) (Z.of_nat (List.length cards) + 1)
        (sent s ++ (channel, Header (header_now io - prev_refresh_interval (cfg s))%Q)
                :: card_messages channel cards)
        (requested s)
  end.
Proof.
  unfold notify. rewrite send_cards. destruct cards as [|card cards].
  - simpl. rewrite app_nil_r. destruct s; reflexivity.
  - cbn [cfg drift_time sent requested send]. rewrite <- app_assoc. reflexivity.
Qed.

(** ** Handlers run during a cycle do not show in what the cycle does *)

Lemma check_board_quiet (channel : Z) (board_id : string) (io : BoardIO) (s t : Cycle) :
  same_obs s t ->
  same_obs (fst (check_board channel board_id io s))
           (fst (check_board channel board_id (quiet io) t)) /\
  snd (check_board channel board_id io s) = snd (check_board channel board_id (quiet io) t).
Proof.
  intros (Hp & Hd & Hs & Hr). unfold check_board. cbn [quiet status during_fetch
    during_send board_actions run_mids fold_left].
  destruct (negb (status io =? 200)).
  - cbn [fst snd]. unfold same_obs, with_cfg, request. cbn [cfg drift_time sent requested].
    rewrite run_mids_prev, Hr. cbn. auto.
  - cbn [fst snd]. split; [|reflexivity].
    rewrite !notify_eq. unfold with_cfg, request.
    cbn [cfg drift_time sent requested header_now quiet fold_left].
    change (run_mids [] (cfg t)) with (cfg t).
    pose proof (run_mids_prev (during_fetch io) (cfg s)) as Hm.
    rewrite (collect_cards_prev (run_mids (during_fetch io) (cfg s)) (cfg t))
      by (rewrite Hm; exact Hp).
    destruct (collect_cards (cfg t) (board_actions io) []) as [|card cards];
      unfold same_obs; cbn [cfg drift_time sent requested fold_left];
      rewrite !run_mids_prev, ?Hm, ?Hp, ?Hs, ?Hr, ?Hd; auto.
Qed.

Section Quiet.

Variable w : World.

Lemma check_boards_quiet (channel : Z) (boards : list Board) :
  forall s t, same_obs s t ->
  same_outcome (check_boards w channel boards s)
               (check_boards (fun n => quiet (w n)) channel boards t).
Proof.
  induction boards as [|board rest IH]; intros s t H; simpl.
  - exact H.
  - destruct (Str.re_search (snd board)) as [board_id|]; [|reflexivity].
    assert (Hr : requested s = requested t) by apply H.
    rewrite <- Hr.
    destruct (check_board_quiet channel board_id (w (List.length (requested s))) s t H)
      as [Hobs Hgo].
    destruct (check_board channel board_id (w (List.length (requested s))) s) as [s' go].
    destruct (check_board channel board_id (quiet (w (List.length (requested s)))) t)
      as [t' go'].
    cbn [fst snd] in Hobs, Hgo. subst go'.
    destruct go; [apply IH; exact Hobs | exact Hobs].
Qed.

Lemma check_channels_quiet (items : Channels) :
  forall s t, same_obs s t ->
  same_outcome (check_channels w items s)
               (check_channels (fun n => quiet (w n)) items t).
Proof.
  induction items as [|[channel boards] rest IH]; intros s t H; simpl.
  - exact H.
  - pose proof (check_boards_quiet channel boards s t H) as Hb.
    destruct (check_boards w channel boards s) as [s'|e];
      destruct (check_boards (fun n => quiet (w n)) channel boards t) as [t'|e'];
      cbn in Hb |- *; try contradiction.
    + apply IH; exact Hb.
    + exact Hb.
Qed.

Lemma poll_cycle_quiet (c : Config) :
  same_report (poll_cycle w c) (poll_cycle (fun n => quiet (w n)) c).
Proof.
  unfold poll_cycle.
  assert (H0 : same_obs (mkCycle c 0 [] []) (mkCycle c 0 [] [])) by (repeat split).
  pose proof (check_channels_quiet (channels c) _ _ H0) as H.
  destruct (check_channels w (channels c) (mkCycle c 0 [] [])) as [s|e];
    destruct (check_channels (fun n => quiet (w n)) (channels c) (mkCycle c 0 [] [])) as [t|e'];
    cbn in H |- *; try contradiction; [|exact H].
  destruct H as (_ & Hd & Hs & Hr). auto.
Qed.

End Quiet.

(** With no handler running, a cycle ends on the configuration it started
    with, but for the copy of [refresh_interval]. *)
Lemma check_board_cfg_quiet channel board_id io (s : Cycle) :
  cfg (fst (check_board channel board_id (quiet io) s)) = cfg s.
Proof.
  unfold check_board. cbn [quiet status during_fetch during_send board_actions].
  destruct (negb (status io =? 200)); cbn [fst]; [reflexivity|].
  rewrite notify_eq. unfold with_cfg, request, run_mids.
  cbn [fold_left cfg drift_time sent requested].
  destruct (collect_cards (cfg s) (board_actions io) []); reflexivity.
Qed.

Lemma check_boards_cfg_quiet (w : World) channel (boards : list Board) :
  forall s s', check_boards (fun n => quiet (w n)) channel boards s = Done s' ->
    cfg s' = cfg s.
Proof.
  induction boards as [|board rest IH]; intros s s'; simpl.
  - intros [= <-]. reflexivity.
  - destruct (Str.re_search (snd board)) as [board_id|]; [|discriminate].
    pose proof (check_board_cfg_quiet channel board_id (w (List.length (requested s))) s) as E.
    destruct (check_board channel board_id (quiet (w (List.length (requested s)))) s) as [t go].
    cbn [fst] in E. destruct go.
    + intros H. rewrite (IH t s' H). exact E.
    + intros [= <-]. exact E.
Qed.

Lemma check_channels_cfg_quiet (w : World) (items : Channels) :
  forall s s', check_channels (fun n => quiet (w n)) items s = Done s' ->
    cfg s' = cfg s.
Proof.
  induction items as [|[channel boards] rest IH]; intros s s'; simpl.
  - intros [= <-]. reflexivity.
  - destruct (check_boards (fun n => quiet (w n)) channel boards s) as [t|e] eqn:E;
      simpl; [|discriminate].
    intros H. rewrite (IH t s' H). exact (check_boards_cfg_quiet w channel boards s t E).
Qed.

Lemma poll_cycle_commits (w : World) (c : Config) :
  match poll_cycle (fun n => quiet (w n)) c with
  | Done e => config_after e = commit_cycle c
  | Raised _ => True
  end.
Proof.
  unfold poll_cycle.
  destruct (check_channels (fun n => quiet (w n)) (channels c) (mkCycle c 0 [] []))
    as [s|x] eqn:E; cbn; [|exact I].
  rewrite (check_channels_cfg_quiet w (channels c) _ s E). reflexivity.
Qed.

(** Handlers leave [prev_refresh_interval] alone; a poll cycle ends with it
    equal to [refresh_interval]. *)
Lemma step_prev (c c' : Config) :
  step c c' ->
  prev_refresh_interval c' = prev_refresh_interval c \/
  (exists w e, poll_cycle w c = Done e /\ c' = config_after e /\
               prev_refresh_interval c' = refresh_interval c').
Proof.
  intros S. destruct S as [c | c minutes | c gb ch url | c ch url lk _ | c w e P].
  - left. reflexivity.
  - left. reflexivity.
  - left. unfold watch_board.
    destruct (Str.re_search url); [|reflexivity].
    destruct (find_watching (channels c) url); [reflexivity|].
    destruct (gb s); reflexivity.
  - left. destruct lk; reflexivity.
  - right. exists w, e. split; [exact P|]. split; [reflexivity|].
    unfold poll_cycle in P.
    destruct (check_channels w (channels c) (mkCycle c 0 [] [])); cbn in P; [|discriminate].
    injection P as <-. reflexivity.
Qed.

(** ** One message per card *)

Section Dedup.

(** The configuration whose window is applied. *)
Variable c : Config.

Lemma card_url_eq (a : Action) : card_url a = url_of_card (shortLink a).
Proof. reflexivity. Qed.

Lemma url_of_card_inj (k k' : string) : url_of_card k = url_of_card k' -> k = k'.
Proof. unfold url_of_card. cbn. intros H. injection H. auto. Qed.

Lemma collect_cards_In (actions : list (Q * Action)) :
  forall cards u,
    In u (collect_cards c actions cards) <->
    In u cards \/ exists x, In x (kept c actions) /\ card_url (snd x) = u.
Proof.
  induction actions as [|[now a] rest IH]; intros cards u; simpl.
  - split; [auto | intros [H | (x & [] & _)]; exact H].
  - rewrite IH. unfold kept. cbn [filter fst snd].
    destruct (in_window c now a) eqn:W.
    + rewrite set_add_iff. split.
      * intros [[E | H] | (x & Hx & E)].
        -- right. exists (now, a). split; [left; reflexivity | symmetry; exact E].
        -- left. exact H.
        -- right. exists x. split; [right; exact Hx | exact E].
      * intros [H | (x & [Hx | Hx] & E)].
        -- left. right. exact H.
        -- subst x. left. left. symmetry. exact E.
        -- right. exists x. split; [exact Hx | exact E].
    + reflexivity.
Qed.

Lemma collect_cards_NoDup (actions : list (Q * Action)) :
  forall cards, NoDup cards -> NoDup (collect_cards c actions cards).
Proof.
  induction actions as [|[now a] rest IH]; intros cards H; simpl.
  - exact H.
  - apply IH. destruct (in_window c now a); [apply set_add_nodup|]; exact H.
Qed.

Lemma count_in_NoDup (u : string) (l : list string) :
  NoDup l ->
  List.length (filter (fun v => String.eqb v u) l) =
  if in_dec string_dec u l then 1%nat else 0%nat.
Proof.
  induction l as [|v l IH]; intros ND; simpl.
  - reflexivity.
  - inversion ND as [|v' l' Hv Hl]; subst.
    destruct (String.eqb_spec v u) as [E | NE].
    + subst v. simpl. rewrite (IH Hl).
      destruct (in_dec string_dec u l) as [Hin | Hout]; [contradiction|].
      destruct (string_dec u u); [reflexivity | contradiction].
    + rewrite (IH Hl). destruct (string_dec v u); [contradiction|].
      destruct (in_dec string_dec u l); reflexivity.
Qed.

Lemma links_to_card_messages (channel : Z) (k : string) (cards : list string) :
  links_to k (card_messages channel cards) =
  List.length (filter (fun v => String.eqb v (url_of_card k)) cards).
Proof.
  unfold links_to, card_messages.
  induction cards as [|card cards IH]; simpl; [reflexivity|].
  destruct (String.eqb card (url_of_card k)); simpl; rewrite IH; reflexivity.
Qed.

Lemma qualifies_In (k : string) (actions : list (Q * Action)) :
  qualifies c k actions = true <->
  exists x, In x (kept c actions) /\ card_url (snd x) = url_of_card k.
Proof.
  unfold qualifies. rewrite existsb_exists. split; intros (x & Hx & E); exists x.
  - apply String.eqb_eq in E. rewrite card_url_eq, E. auto.
  - rewrite card_url_eq in E. apply url_of_card_inj in E.
    split; [exact Hx | apply String.eqb_eq; exact E].
Qed.

Lemma same_elements_length (l l' : list string) :
  NoDup l -> NoDup l' -> (forall u, In u l <-> In u l') ->
  List.length l = List.length l'.
Proof.
  intros N N' H. apply Nat.le_antisymm; apply NoDup_incl_length; auto;
    intros u Hu; apply H; exact Hu.
Qed.

Lemma filter_links_card_messages (channel : Z) (cards : list string) :
  filter is_link (card_messages channel cards) = card_messages channel cards.
Proof.
  unfold card_messages.
  induction cards as [|card cards IH]; cbn; [reflexivity|].
  f_equal. exact IH.
Qed.

Lemma length_cards_distinct (actions : list (Q * Action)) :
  List.length (collect_cards c actions []) =
  List.length (nodup string_dec (map (fun x => shortLink (snd x)) (kept c actions))).
Proof.
  rewrite <- (length_map url_of_card (nodup string_dec _)).
  apply same_elements_length.
  - apply collect_cards_NoDup. constructor.
  - apply Finite.Injective_map_NoDup; [|apply NoDup_nodup].
    intros k k'. apply url_of_card_inj.
  - intros u. rewrite collect_cards_In, in_map_iff. split.
    + intros [[] | (x & Hx & E)]. exists (shortLink (snd x)). split; [exact E|].
      apply nodup_In. apply in_map_iff. exists x. auto.
    + intros (k & E & Hk). right. apply nodup_In, in_map_iff in Hk.
      destruct Hk as (x & Ex & Hx). exists x. split; [exact Hx|].
      rewrite card_url_eq, Ex. exact E.
Qed.

Lemma check_board_sent (channel : Z) (board_id : string) (io : BoardIO) (s : Cycle) :
  status io = 200 ->
  sent (fst (check_board channel board_id io s)) =
  (sent s ++ board_messages channel io (run_mids (during_fetch io) (cfg s)))%list.
Proof.
  intros H. unfold check_board. rewrite H. cbn [negb Z.eqb Pos.eqb fst].
  rewrite notify_eq. unfold board_messages, with_cfg, request.
  cbn [cfg drift_time sent requested].
  destruct (collect_cards (run_mids (during_fetch io) (cfg s)) (board_actions io) []);
    cbn [sent]; [rewrite app_nil_r|]; reflexivity.
Qed.

End Dedup.

(** C8. The check of one board whose query is answered with status 200
    sends, for every card, exactly one link message when some action on that
    card falls in the window and none otherwise, however many such actions
    there are; the number of link messages is the number of distinct cards
    among the actions in the window. *)
Theorem one_notification_per_card (channel : Z) (board_id : string)
    (io : BoardIO) (s : Cycle) :
  status io = 200 ->
  let c := run_mids (during_fetch io) (cfg s) in
  exists new,
    sent (fst (check_board channel board_id io s)) = (sent s ++ new)%list /\
    (forall k, links_to k new =
               if qualifies c k (board_actions io) then 1%nat else 0%nat) /\
    List.length (filter is_link new) =
      List.length (nodup string_dec
                     (map (fun x => shortLink (snd x)) (kept c (board_actions io)))) /\
    (forall m, In m new -> fst m = channel).
Proof.
  intros H c. exists (board_messages channel io c).
  split; [apply check_board_sent; exact H|].
  unfold board_messages.
  pose proof (collect_cards_NoDup c (board_actions io) [] (NoDup_nil _)) as ND.
  pose proof (collect_cards_In c (board_actions io) []) as HIn.
  pose proof (length_cards_distinct c (board_actions io)) as HL.
  set (cards := collect_cards c (board_actions io) []) in *.
  assert (Hlinks : forall k, links_to k (card_messages channel cards) =
            if qualifies c k (board_actions io) then 1%nat else 0%nat).
  { intros k. rewrite links_to_card_messages, (count_in_NoDup _ _ ND).
    destruct (in_dec string_dec (url_of_card k) cards) as [Hc | Hc];
      destruct (qualifies c k (board_actions io)) eqn:Q; try reflexivity.
    - apply HIn in Hc. destruct Hc as [[] | Hc].
      apply qualifies_In in Hc. congruence.
    - exfalso. apply Hc, HIn. right. apply qualifies_In. exact Q. }
  assert (Hch : forall m, In m (card_messages channel cards) -> fst m = channel).
  { intros m Hm. apply in_map_iff in Hm. destruct Hm as (u & <- & _). reflexivity. }
  destruct cards as [|card cards'] eqn:E.
  - split; [exact Hlinks|]. split; [exact HL | intros m []].
  - split; [intros k; rewrite <- Hlinks; reflexivity|].
    split.
    + change (List.length (filter is_link (card_messages channel (card :: cards'))) =
              List.length (nodup string_dec
                (map (fun x => shortLink (snd x)) (kept c (board_actions io))))).
      rewrite filter_links_card_messages. unfold card_messages.
      rewrite length_map. exact HL.
    + intros m [<- | Hm]; [reflexivity | apply Hch; exact Hm].
Qed.

Lemma one_notification_per_card_witness :
  exists new,
    sent (fst (check_board 1 "abc" Scenario.same_card_twice
                 (mkCycle Scenario.one_board 0 [] []))) = ([] ++ new)%list /\
    (forall k, links_to k new =
               if qualifies Scenario.one_board k (board_actions Scenario.same_card_twice)
               then 1%nat else 0%nat) /\
    List.length (filter is_link new) =
      List.length (nodup string_dec
                     (map (fun x => shortLink (snd x))
                          (kept Scenario.one_board (board_actions Scenario.same_card_twice)))) /\
    (forall m, In m new -> fst m = 1).
Proof.
  apply (one_notification_per_card 1 "abc" Scenario.same_card_twice
           (mkCycle Scenario.one_board 0 [] [])).
  reflexivity.
Defined.

(** ** The registry under [watch_board] and [reset_bot] *)

Lemma find_watching_sound (d : Channels) (board_url : string) (owner : Z) :
  find_watching d board_url = Some owner -> watches d owner board_url.
Proof.
  induction d as [|[channel_id boards] rest IH]; simpl; [discriminate|].
  destruct (existsb (same_url board_url) boards) eqn:E.
  - intros [= <-]. apply existsb_exists in E. destruct E as (board & Hb & E).
    apply String.eqb_eq in E. exists boards, board. simpl. auto.
  - intros H. destruct (IH H) as (bs & b & Hin & Hb & E').
    exists bs, b. simpl. auto.
Qed.

Lemma find_watching_complete (d : Channels) (board_url : string) (owner : Z) :
  watches d owner board_url -> exists first, find_watching d board_url = Some first.
Proof.
  intros (bs & b & Hin & Hb & E).
  induction d as [|[channel_id boards] rest IH]; simpl; [destruct Hin|].
  destruct (existsb (same_url board_url) boards) eqn:X; [eauto|].
  destruct Hin as [[= -> ->] | Hin]; [|exact (IH Hin)].
  exfalso. assert (T : existsb (same_url board_url) bs = true).
  { apply existsb_exists. exists b. split; [exact Hb | apply String.eqb_eq; exact E]. }
  congruence.
Qed.

Lemma dict_set_no_empty (d : Channels) (k : Z) (v : WatchSet) :
  v <> [] -> no_empty_set d -> no_empty_set (Dict.set d k v).
Proof.
  intros Hv. induction 1 as [|[k' v'] rest Hx Hrest IH]; simpl.
  - repeat constructor. exact Hv.
  - destruct (Z.eqb k' k); constructor; auto.
Qed.

Lemma register_board_no_empty (channel_id : Z) (board : Board) (d : Channels) :
  no_empty_set d -> no_empty_set (register_board channel_id board d).
Proof.
  intros H. unfold register_board.
  destruct (Dict.get d channel_id) as [[|b bs]|]; apply dict_set_no_empty;
    try exact H; try discriminate.
  apply set_add_not_empty.
Qed.

Lemma watch_board_finish_no_empty channel_id board_url lk (c : Config) :
  no_empty_set (channels c) ->
  no_empty_set (channels (fst (watch_board_finish channel_id board_url lk c))).
Proof.
  intros H. destruct lk; simpl; try exact H.
  apply register_board_no_empty. exact H.
Qed.

Lemma watch_board_no_empty get_board channel_id board_url (c : Config) :
  no_empty_set (channels c) ->
  no_empty_set (channels (fst (watch_board get_board channel_id board_url c))).
Proof.
  intros H. unfold watch_board.
  destruct (Str.re_search board_url); [|exact H].
  destruct (find_watching (channels c) board_url); [exact H|].
  apply watch_board_finish_no_empty. exact H.
Qed.

Lemma run_mids_no_empty (ms : list MidCycle) :
  forall c, no_empty_set (channels c) -> no_empty_set (channels (run_mids ms c)).
Proof.
  induction ms as [|m ms IH]; intros c H; simpl; [exact H|].
  apply IH. destruct m; simpl; [exact H | constructor].
Qed.

Lemma check_board_no_empty channel board_id io (s : Cycle) :
  no_empty_set (channels (cfg s)) ->
  no_empty_set (channels (cfg (fst (check_board channel board_id io s)))).
Proof.
  intros H. unfold check_board.
  destruct (negb (status io =? 200)); cbn [fst].
  - cbn. apply run_mids_no_empty. exact H.
  - rewrite notify_eq.
    destruct (collect_cards _ (board_actions io) []); cbn;
      repeat apply run_mids_no_empty; exact H.
Qed.

Section NoEmptySet.

Variable w : World.

Lemma check_boards_no_empty channel (boards : list Board) :
  forall s s', no_empty_set (channels (cfg s)) ->
    check_boards w channel boards s = Done s' ->
    no_empty_set (channels (cfg s')).
Proof.
  induction boards as [|board rest IH]; intros s s' H; simpl.
  - intros [= <-]. exact H.
  - destruct (Str.re_search (snd board)) as [board_id|]; [|discriminate].
    pose proof (check_board_no_empty channel board_id (w (List.length (requested s))) s H) as Hb.
    destruct (check_board channel board_id (w (List.length (requested s))) s) as [t go].
    destruct go; [apply IH; exact Hb | intros [= <-]; exact Hb].
Qed.

Lemma check_channels_no_empty (items : Channels) :
  forall s s', no_empty_set (channels (cfg s)) ->
    check_channels w items s = Done s' ->
    no_empty_set (channels (cfg s')).
Proof.
  induction items as [|[channel boards] rest IH]; intros s s' H; simpl.
  - intros [= <-]. exact H.
  - destruct (check_boards w channel boards s) as [t|e] eqn:E; simpl; [|discriminate].
    apply IH. exact (check_boards_no_empty channel boards s t H E).
Qed.

End NoEmptySet.

Lemma step_no_empty (c c' : Config) :
  step c c' -> no_empty_set (channels c) -> no_empty_set (channels c').
Proof.
  intros S H. destruct S as [c | c minutes | c gb ch url | c ch url lk _ | c w e P].
  - constructor.
  - exact H.
  - apply watch_board_no_empty. exact H.
  - apply watch_board_finish_no_empty. exact H.
  - unfold poll_cycle in P.
    destruct (check_channels w (channels c) (mkCycle c 0 [] [])) as [s|x] eqn:E;
      simpl in P; [|discriminate].
    injection P as <-. simpl.
    exact (check_channels_no_empty w (channels c) (mkCycle c 0 [] []) s H E).
Qed.

(** C10. Starting from the empty registry, no sequence of handlers and poll
    cycles reaches a configuration in which a channel is mapped to an empty
    set, and whatever runs next ([watch_board], [reset_bot],
    [set_refresh_interval], a poll cycle) leaves it so. *)
Theorem registry_has_no_empty_set (c : Config) :
  reachable c ->
  no_empty_set (channels c) /\
  (forall c', step c c' -> no_empty_set (channels c')).
Proof.
  intros R.
  assert (H : no_empty_set (channels c)).
  { induction R as [|c c' R IH S].
    - constructor.
    - exact (step_no_empty c c' S IH). }
  split; [exact H|].
  intros c' S. exact (step_no_empty c c' S H).
Qed.

Lemma registry_has_no_empty_set_witness :
  no_empty_set (channels Scenario.three_boards) /\
  (forall c', step Scenario.three_boards c' -> no_empty_set (channels c')).
Proof.
  apply (registry_has_no_empty_set Scenario.three_boards).
  apply (reach_step Scenario.two_boards); [|apply step_watch].
  apply (reach_step (Scenario.watch 1 "https://trello.com/b/AAA/first" initial_config));
    [|apply step_watch].
  apply (reach_step initial_config); [apply reach_init | apply step_watch].
Defined.

(** ** What [watch_board] answers *)

(** C9. [watch_board] changes the configuration only when it answers that
    the board was added, which takes a URL that parses, no channel watching
    it and a successful lookup of the parsed identifier; then the board is
    registered in the calling channel and nothing else changes. On an
    unparsable URL, on a duplicate, on a failed lookup (its text is the
    answer) and on any other exception the configuration is left as it was;
    the same holds when the lookup completes after other handlers ran. *)
Theorem watch_board_failure_keeps_registry :
  (forall get_board channel_id board_url c,
      let r := watch_board get_board channel_id board_url c in
      match snd r with
      | Some (AddedBoard name url) =>
          url = board_url /\
          (exists board_id, Str.re_search board_url = Some board_id /\
                            get_board board_id = BoardInfo name) /\
          find_watching (channels c) board_url = None /\
          channels (fst r) = register_board channel_id (name, board_url) (channels c) /\
          refresh_interval (fst r) = refresh_interval c /\
          prev_refresh_interval (fst r) = prev_refresh_interval c
      | _ => fst r = c
      end) /\
  (forall get_board channel_id board_url c,
      match Str.re_search board_url with
      | None =>
          watch_board get_board channel_id board_url c = (c, Some IncorrectBoardURL)
      | Some board_id =>
          match find_watching (channels c) board_url with
          | Some owner =>
              watch_board get_board channel_id board_url c = (c, Some (AlreadyWatched owner))
          | None =>
              match get_board board_id with
              | ClientResponseError text =>
                  watch_board get_board channel_id board_url c = (c, Some (LookupFailed text))
              | OtherError =>
                  watch_board get_board channel_id board_url c = (c, None)
              | BoardInfo name =>
                  snd (watch_board get_board channel_id board_url c) =
                  Some (AddedBoard name board_url)
              end
          end
      end) /\
  (forall channel_id board_url lk c,
      match lk with
      | BoardInfo name =>
          channels (fst (watch_board_finish channel_id board_url lk c)) =
          register_board channel_id (name, board_url) (channels c)
      | ClientResponseError text =>
          watch_board_finish channel_id board_url lk c = (c, Some (LookupFailed text))
      | OtherError =>
          watch_board_finish channel_id board_url lk c = (c, None)
      end).
Proof.
  split; [|split].
  - intros gb channel_id board_url c. unfold watch_board. cbn zeta.
    destruct (Str.re_search board_url) as [board_id|] eqn:P; [|reflexivity].
    destruct (find_watching (channels c) board_url) as [owner|] eqn:F; [reflexivity|].
    destruct (gb board_id) as [name|text|] eqn:L; cbn; try reflexivity.
    repeat split. exists board_id. auto.
  - intros gb channel_id board_url c. unfold watch_board.
    destruct (Str.re_search board_url) as [board_id|]; [|reflexivity].
    destruct (find_watching (channels c) board_url) as [owner|]; [reflexivity|].
    destruct (gb board_id); reflexivity.
  - intros channel_id board_url lk c. destruct lk; reflexivity.
Qed.

(** C6, as stated, fails: channel 1 watches a board, the same URL in upper
    case equals it up to case, and the answer is the one for an incorrect
    URL, which names no channel. *)
Lemma upper_case_duplicate_is_incorrect_url :
  watches (channels Scenario.one_board) 1 "HTTPS://TRELLO.COM/B/ABC/X" /\
  watch_board Scenario.roadmap 2 "HTTPS://TRELLO.COM/B/ABC/X" Scenario.one_board =
  (Scenario.one_board, Some IncorrectBoardURL).
Proof.
  split; [|reflexivity].
  exists [("Roadmap", "https://trello.com/b/abc/x")], ("Roadmap", "https://trello.com/b/abc/x").
  repeat split; left; reflexivity.
Qed.

(** C6, amended. When some channel holds a board whose URL equals
    [board_url] up to case, [watch_board] leaves the configuration as it is;
    if [board_url] passes the pattern check the answer names a channel that
    holds such a board (the first one in iteration order), otherwise the
    answer is the one for an incorrect URL. *)
Theorem watch_board_rejects_watched_url get_board channel_id board_url c owner :
  watches (channels c) owner board_url ->
  fst (watch_board get_board channel_id board_url c) = c /\
  match Str.re_search board_url with
  | Some _ =>
      exists first,
        watches (channels c) first board_url /\
        snd (watch_board get_board channel_id board_url c) = Some (AlreadyWatched first)
  | None =>
      snd (watch_board get_board channel_id board_url c) = Some IncorrectBoardURL
  end.
Proof.
  intros W. destruct (find_watching_complete _ _ _ W) as (first & F).
  unfold watch_board. destruct (Str.re_search board_url) as [board_id|].
  - rewrite F. split; [reflexivity|]. exists first. split; [|reflexivity].
    apply find_watching_sound. exact F.
  - split; reflexivity.
Qed.

Lemma watch_board_rejects_watched_url_witness :
  fst (watch_board Scenario.roadmap 2 "https://Trello.com/b/abc/x" Scenario.one_board) =
    Scenario.one_board /\
  match Str.re_search "https://Trello.com/b/abc/x" with
  | Some _ =>
      exists first,
        watches (channels Scenario.one_board) first "https://Trello.com/b/abc/x" /\
        snd (watch_board Scenario.roadmap 2 "https://Trello.com/b/abc/x" Scenario.one_board) =
        Some (AlreadyWatched first)
  | None =>
      snd (watch_board Scenario.roadmap 2 "https://Trello.com/b/abc/x" Scenario.one_board) =
      Some IncorrectBoardURL
  end.
Proof.
  apply (watch_board_rejects_watched_url Scenario.roadmap 2 "https://Trello.com/b/abc/x"
           Scenario.one_board 1).
  exists [("Roadmap", "https://trello.com/b/abc/x")], ("Roadmap", "https://trello.com/b/abc/x").
  repeat split; left; reflexivity.
Defined.


(** ** A failed query *)

(** When the query for a board is answered with a status other than 200 the
    [break] leaves the loop over the channel's boards: the boards that
    follow in the same channel are not visited. *)
Lemma failed_query_leaves_channel (w : World) channel board rest board_id (s : Cycle) :
  Str.re_search (snd board) = Some board_id ->
  status (w (List.length (requested s))) <> 200 ->
  check_boards w channel (board :: rest) s =
  Done (with_cfg (run_mids (during_fetch (w (List.length (requested s)))))
                 (request board_id s)).
Proof.
  intros P H. simpl. rewrite P. unfold check_board.
  destruct (Z.eqb_spec (status (w (List.length (requested s)))) 200) as [E | _];
    [contradiction | reflexivity].
Qed.

(** C2, on a concrete run. Channel 1 watches the boards AAA and BBB, channel
    2 the board CCC; the first query of the cycle is answered with status
    500, every other query would be answered with a fresh card. The cycle
    queries AAA and CCC only and notifies channel 2 only: BBB, the remaining
    board of channel 1, is never queried. *)
Theorem failed_query_skips_rest_of_channel :
  match poll_cycle Scenario.first_query_fails Scenario.three_boards with
  | Done e =>
      queried e = ["AAA"; "CCC"] /\
      messages e = [(2, Header (1000 - 3600)%Q);
                    (2, CardLink "https://trello.com/c/card1")] /\
      ~ In "BBB" (queried e)
  | Raised _ => False
  end.
Proof.
  cbn. repeat split. intros [H | [H | []]]; discriminate.
Qed.

(** ** Drift and the closing sleep *)

(** A board with cards in the window sets [drift_time] to its own count of
    messages, whatever [drift_time] was before. *)
Lemma notify_sets_drift channel io card cards (s : Cycle) :
  drift_time (notify channel io (card :: cards) s) =
  Z.of_nat (List.length (card :: cards)) + 1.
Proof. rewrite notify_eq. reflexivity. Qed.

(** C3, on a concrete run. Channel 1 watches two boards and each query is
    answered with one fresh card: the cycle sends four messages (two headers
    and two links) and ends with [drift_time = 2], the count of the last
    board alone. *)
Theorem drift_is_overwritten_per_board :
  match poll_cycle Scenario.one_card_each Scenario.two_boards with
  | Done e =>
      messages e = [(1, Header (1000 - 3600)%Q);
                    (1, CardLink "https://trello.com/c/card1");
                    (1, Header (1000 - 3600)%Q);
                    (1, CardLink "https://trello.com/c/card1")] /\
      List.length (messages e) = 4%nat /\
      drift e = 2
  | Raised _ => False
  end.
Proof. cbn. repeat split. Qed.

(** The argument of the closing sleep is negative when [drift_time] exceeds
    [refresh_interval]: with a 3 second interval and one board answering with
    three fresh cards the cycle sends four messages, [drift_time] is 4, the
    argument is below 0 and the loop stays suspended for no time. *)
Lemma negative_argument_sleeps_zero :
  match poll_cycle Scenario.three_cards_each Scenario.short_interval with
  | Done e =>
      (refresh_interval (config_after e) <= inject_Z (drift e))%Q /\
      (sleep_arg e < 0)%Q /\
      slept e = 0%Q
  | Raised _ => False
  end.
Proof.
  cbn. split; [|split].
  - discriminate.
  - reflexivity.
  - reflexivity.
Qed.


(** ** Reset *)

(** C5, on a concrete run. After [set_refresh_interval(1)] and one poll
    cycle both intervals are 60 seconds; [reset_bot] then empties the
    registry and sets [refresh_interval] to 3600, and
    [prev_refresh_interval] is still 60. In general [reset_bot] leaves
    [prev_refresh_interval] as it finds it. *)
Theorem reset_bot_keeps_previous_interval :
  (forall c,
      let c' := fst (reset_bot c) in
      channels c' = [] /\ list_boards_all c' = [] /\
      refresh_interval c' = 3600%Q /\
      prev_refresh_interval c' = prev_refresh_interval c) /\
  match poll_cycle Scenario.one_card_each Scenario.one_minute with
  | Done e =>
      let c' := fst (reset_bot (config_after e)) in
      channels c' = [] /\ list_boards_all c' = [] /\
      refresh_interval c' = 3600%Q /\
      prev_refresh_interval c' = 60%Q /\
      ~ (prev_refresh_interval c' == 3600)%Q
  | Raised _ => False
  end.
Proof.
  split; [intros c; cbn; repeat split|].
  cbn. repeat split. discriminate.
Qed.

(** ** The board identifier *)

(** [watch_board] answers that the URL is incorrect exactly when the URL
    holds no b, slash, run, slash. *)
Lemma watch_board_incorrect_url get_board channel_id board_url (c : Config) :
  snd (watch_board get_board channel_id board_url c) = Some IncorrectBoardURL <->
  forall pre g post, one_line g = true -> board_url <> segment pre g post.
Proof.
  rewrite <- StrFacts.re_search_None_iff. unfold watch_board.
  destruct (Str.re_search board_url) as [board_id|]; [|split; reflexivity].
  split; [|discriminate].
  destruct (find_watching (channels c) board_url); [discriminate|].
  destruct (get_board board_id); discriminate.
Qed.

(** C7, on concrete URLs. The group runs to the LAST slash of the line, so a
    URL with a trailing slash yields an identifier of two path segments,
    which [watch_board] then looks up; and the pattern is found inside a
    longer path segment. *)
Theorem board_id_runs_to_last_slash :
  Str.re_search "https://trello.com/b/ABC123/my-board" = Some "ABC123" /\
  Str.re_search "https://trello.com/b/ABC123/my-board/" = Some "ABC123/my-board" /\
  watch_board Scenario.only_ABC123 1 "https://trello.com/b/ABC123/my-board/" initial_config =
    (initial_config, Some (LookupFailed "404, message='Not Found'")) /\
  Str.re_search "https://web/x/y" = Some "x" /\
  Str.re_search "https://trello.com/b/ABC123" = None.
Proof. repeat split. Qed.

(** * Further properties *)

(** ** The registry as a dict *)

Module DictFacts.

Lemma get_set_same (d : Channels) (k : Z) (v : WatchSet) :
  Dict.get (Dict.set d k v) k = Some v.
Proof.
  induction d as [|[k' v'] rest IH]; simpl.
  - rewrite Z.eqb_refl. reflexivity.
  - destruct (Z.eqb k' k) eqn:E; simpl; rewrite E; [reflexivity | exact IH].
Qed.

Lemma get_set_other (d : Channels) (k k' : Z) (v : WatchSet) :
  k' <> k -> Dict.get (Dict.set d k v) k' = Dict.get d k'.
Proof.
  intros N. induction d as [|[k0 v0] rest IH]; simpl.
  - destruct (Z.eqb_spec k k'); [congruence | reflexivity].
  - destruct (Z.eqb_spec k0 k) as [-> | N0]; simpl.
    + destruct (Z.eqb_spec k k'); [congruence | reflexivity].
    + rewrite IH. reflexivity.
Qed.

Lemma set_add_fresh (board : Board) (l : WatchSet) :
  ~ In board l -> set_add Board_eq_dec board l = (l ++ [board])%list.
Proof.
  induction l as [|b l IH]; simpl; intros N; [reflexivity|].
  destruct (Board_eq_dec board b) as [-> | _]; [exfalso; auto|].
  rewrite IH; [reflexivity | auto].
Qed.

Lemma all_boards_set_absent (d : Channels) (k : Z) (v : WatchSet) :
  Dict.get d k = None -> all_boards (Dict.set d k v) = (all_boards d ++ v)%list.
Proof.
  unfold all_boards. induction d as [|[k' v'] rest IH]; simpl.
  - intros _. rewrite app_nil_r. reflexivity.
  - destruct (Z.eqb k' k); [discriminate|]. intros H. simpl.
    rewrite (IH H), app_assoc. reflexivity.
Qed.

Lemma all_boards_set_present (d : Channels) (k : Z) (old extra : WatchSet) :
  Dict.get d k = Some old ->
  Permutation (all_boards (Dict.set d k (old ++ extra)%list))
              (extra ++ all_boards d)%list.
Proof.
  unfold all_boards. induction d as [|[k' v'] rest IH]; simpl; [discriminate|].
  destruct (Z.eqb k' k).
  - intros [= ->]. simpl. rewrite (app_assoc extra old).
    apply Permutation_app_tail. apply Permutation_app_comm.
  - intros H. simpl. rewrite (IH H).
    rewrite !app_assoc. apply Permutation_app_tail. apply Permutation_app_comm.
Qed.

End DictFacts.

(** ** Watching a board, then listing and watching again *)

Lemma same_url_lower (url url' : string) (board : Board) :
  Str.lower url' = Str.lower url -> same_url url' board = same_url url board.
Proof. intros E. unfold same_url. rewrite E. reflexivity. Qed.

Lemma find_watching_lower (d : Channels) (url url' : string) :
  Str.lower url' = Str.lower url -> find_watching d url' = find_watching d url.
Proof.
  intros E. induction d as [|[k v] rest IH]; simpl; [reflexivity|].
  rewrite IH. unfold same_url. rewrite E. reflexivity.
Qed.

Lemma find_watching_None (d : Channels) (url : string) :
  find_watching d url = None <->
  forall board, In board (all_boards d) -> same_url url board = false.
Proof.
  unfold all_boards. induction d as [|[k v] rest IH]; simpl.
  - split; [intros _ board [] | reflexivity].
  - destruct (existsb (same_url url) v) eqn:E.
    + split; [discriminate|]. intros H. apply existsb_exists in E.
      destruct E as (board & Hb & E). rewrite H in E; [discriminate|].
      apply in_or_app. left. exact Hb.
    + rewrite IH. split; intros H board Hb.
      * apply in_app_or in Hb. destruct Hb as [Hb | Hb]; [|exact (H board Hb)].
        destruct (same_url url board) eqn:S; [|reflexivity].
        assert (T : existsb (same_url url) v = true)
          by (apply existsb_exists; exists board; auto).
        congruence.
      * apply H. apply in_or_app. right. exact Hb.
Qed.

Lemma same_url_refl (name url : string) : same_url url (name, url) = true.
Proof. unfold same_url. apply String.eqb_refl. Qed.

Lemma find_watching_set (d : Channels) (k : Z) (v : WatchSet) (url : string) :
  find_watching d url = None ->
  existsb (same_url url) v = true ->
  find_watching (Dict.set d k v) url = Some k.
Proof.
  intros N T. induction d as [|[k0 v0] rest IH]; simpl in *.
  - rewrite T. reflexivity.
  - destruct (existsb (same_url url) v0) eqn:E0; [discriminate|].
    destruct (Z.eqb_spec k0 k) as [-> | _]; simpl.
    + rewrite T. reflexivity.
    + rewrite E0. exact (IH N).
Qed.

Lemma fresh_board (d : Channels) (k : Z) (old : WatchSet) (name url : string) :
  find_watching d url = None -> Dict.get d k = Some old -> ~ In (name, url) old.
Proof.
  intros N G Hin. rewrite find_watching_None in N.
  assert (Hall : In (name, url) (all_boards d)).
  { unfold all_boards. clear N. induction d as [|[k0 v0] rest IH]; simpl in *; [discriminate|].
    apply in_or_app. destruct (Z.eqb k0 k); [left | right; auto].
    injection G as ->. exact Hin. }
  pose proof (N _ Hall) as F. rewrite same_url_refl in F. discriminate.
Qed.

(** What [register_board] stores when no channel watches the URL yet. *)
Lemma register_board_fresh (d : Channels) (k : Z) (name url : string) :
  find_watching d url = None ->
  register_board k (name, url) d =
  Dict.set d k (match Dict.get d k with Some old => old | None => [] end
                ++ [(name, url)])%list.
Proof.
  intros N. unfold register_board.
  destruct (Dict.get d k) as [[|b bs]|] eqn:G; try reflexivity.
  rewrite DictFacts.set_add_fresh; [reflexivity|].
  exact (fresh_board d k (b :: bs) name url N G).
Qed.

Lemma watch_board_added get_board channel_id board_url (c : Config) name url :
  snd (watch_board get_board channel_id board_url c) = Some (AddedBoard name url) ->
  url = board_url /\
  find_watching (channels c) board_url = None /\
  Str.re_search board_url <> None /\
  fst (watch_board get_board channel_id board_url c) =
  mkConfig (refresh_interval c) (prev_refresh_interval c)
           (register_board channel_id (name, board_url) (channels c)).
Proof.
  unfold watch_board.
  destruct (Str.re_search board_url) as [board_id|]; [|discriminate].
  destruct (find_watching (channels c) board_url); [discriminate|].
  destruct (get_board board_id); simpl; try discriminate.
  intros [= -> ->]. repeat split. discriminate.
Qed.

(** X3. When [watch_board] answers that the board was added, the board was
    not in the calling channel's set, that set is now its former boards and
    the new one (in whatever order the set iterates), every other channel's
    set is as before, both intervals are as before, and [list_boards] for
    the calling channel lists the former names and the new one. *)
Theorem watch_board_adds_one_board get_board channel_id board_url (c : Config) name :
  snd (watch_board get_board channel_id board_url c) = Some (AddedBoard name board_url) ->
  let c' := fst (watch_board get_board channel_id board_url c) in
  let old := match Dict.get (channels c) channel_id with Some l => l | None => [] end in
  ~ In (name, board_url) old /\
  (exists boards,
      Dict.get (channels c') channel_id = Some boards /\
      Permutation boards ((name, board_url) :: old)) /\
  (forall other, other <> channel_id ->
                 Dict.get (channels c') other = Dict.get (channels c) other) /\
  Permutation (list_boards_here channel_id c') (name :: list_boards_here channel_id c) /\
  refresh_interval c' = refresh_interval c /\
  prev_refresh_interval c' = prev_refresh_interval c.
Proof.
  intros H. apply watch_board_added in H. destruct H as (_ & N & _ & E).
  cbv zeta. rewrite E. cbn [channels refresh_interval prev_refresh_interval].
  rewrite (register_board_fresh _ _ _ _ N).
  split.
  { destruct (Dict.get (channels c) channel_id) as [old|] eqn:G; [|intros []].
    exact (fresh_board _ _ old name board_url N G). }
  split.
  { eexists. split; [apply DictFacts.get_set_same|].
    symmetry. apply Permutation_cons_append. }
  split; [intros other Ho; apply DictFacts.get_set_other; exact Ho|].
  split; [|split; reflexivity].
  unfold list_boards_here. cbn [channels]. rewrite DictFacts.get_set_same, map_app.
  cbn [map fst]. symmetry.
  destruct (Dict.get (channels c) channel_id); apply Permutation_cons_append.
Qed.

Lemma watch_board_adds_one_board_witness :
  let c' := fst (watch_board Scenario.roadmap 1 "https://trello.com/b/def/y" Scenario.one_board) in
  let old := match Dict.get (channels Scenario.one_board) 1 with Some l => l | None => [] end in
  ~ In ("Roadmap", "https://trello.com/b/def/y") old /\
  (exists boards,
      Dict.get (channels c') 1 = Some boards /\
      Permutation boards (("Roadmap", "https://trello.com/b/def/y") :: old)) /\
  (forall other, other <> 1 ->
                 Dict.get (channels c') other = Dict.get (channels Scenario.one_board) other) /\
  Permutation (list_boards_here 1 c') ("Roadmap" :: list_boards_here 1 Scenario.one_board) /\
  refresh_interval c' = refresh_interval Scenario.one_board /\
  prev_refresh_interval c' = prev_refresh_interval Scenario.one_board.
Proof.
  apply (watch_board_adds_one_board Scenario.roadmap 1 "https://trello.com/b/def/y"
           Scenario.one_board "Roadmap").
  reflexivity.
Defined.

(** X4. Once [watch_board] has added a board for a channel, a later
    [watch_board] from any channel with a URL that passes the pattern search
    and equals the added one up to case changes nothing and answers with
    the channel that added it. *)
Theorem second_watch_names_first_channel get_board get_board' channel_id channel_id'
    board_url board_url' (c : Config) name :
  snd (watch_board get_board channel_id board_url c) = Some (AddedBoard name board_url) ->
  Str.lower board_url' = Str.lower board_url ->
  Str.re_search board_url' <> None ->
  let c' := fst (watch_board get_board channel_id board_url c) in
  watch_board get_board' channel_id' board_url' c' = (c', Some (AlreadyWatched channel_id)).
Proof.
  intros H L P. apply watch_board_added in H. destruct H as (_ & N & _ & E).
  cbv zeta. rewrite E. unfold watch_board at 1.
  destruct (Str.re_search board_url') as [board_id|]; [|contradiction].
  cbn [channels]. rewrite (find_watching_lower _ _ _ L).
  rewrite (register_board_fresh _ _ _ _ N).
  rewrite (find_watching_set _ _ _ _ N); [reflexivity|].
  apply existsb_exists. exists (name, board_url). split; [|apply same_url_refl].
  apply in_or_app. right. left. reflexivity.
Qed.

Lemma second_watch_names_first_channel_witness :
  let c' := fst (watch_board Scenario.roadmap 1 "https://trello.com/b/def/y" Scenario.one_board) in
  watch_board Scenario.only_ABC123 2 "https://TRELLO.com/b/DEF/y" c' =
  (c', Some (AlreadyWatched 1)).
Proof.
  apply (second_watch_names_first_channel Scenario.roadmap Scenario.only_ABC123 1 2
           "https://trello.com/b/def/y" "https://TRELLO.com/b/DEF/y"
           Scenario.one_board "Roadmap").
  - reflexivity.
  - reflexivity.
  - discriminate.
Defined.

(** ** The poll loop, board by board *)

Lemma check_board_eq (channel : Z) (board_id : string) (io : BoardIO) (s : Cycle) :
  check_board channel board_id io s =
  (checked channel board_id io s, status io =? 200).
Proof.
  unfold check_board, checked. destruct (status io =? 200); cbn [negb]; [|reflexivity].
  rewrite notify_eq. unfold with_cfg, request, board_messages.
  cbn [cfg drift_time sent requested].
  destruct (collect_cards (run_mids (during_fetch io) (cfg s)) (board_actions io) []);
    cbn [sent]; [rewrite app_nil_r|]; reflexivity.
Qed.

Section LoopInvariant.

Variable w : World.
Variable P : Cycle -> Prop.

Lemma check_boards_inv (channel : Z) (boards : list Board) :
  (forall board board_id s,
      In board boards -> Str.re_search (snd board) = Some board_id -> P s ->
      P (checked channel board_id (w (List.length (requested s))) s)) ->
  forall s s', P s -> check_boards w channel boards s = Done s' -> P s'.
Proof.
  induction boards as [|board rest IH]; intros Hstep s s' H; simpl.
  - intros [= <-]. exact H.
  - destruct (Str.re_search (snd board)) as [board_id|] eqn:E; [|discriminate].
    rewrite check_board_eq.
    assert (H1 : P (checked channel board_id (w (List.length (requested s))) s))
      by (apply (Hstep board); simpl; auto).
    destruct (status (w (List.length (requested s))) =? 200).
    + apply IH; [|exact H1]. intros b id t Hb. apply Hstep. right. exact Hb.
    + intros [= <-]. exact H1.
Qed.

Lemma check_channels_inv (items : Channels) :
  (forall channel boards board board_id s,
      In (channel, boards) items -> In board boards ->
      Str.re_search (snd board) = Some board_id -> P s ->
      P (checked channel board_id (w (List.length (requested s))) s)) ->
  forall s s', P s -> check_channels w items s = Done s' -> P s'.
Proof.
  induction items as [|[channel boards] rest IH]; intros Hstep s s' H; simpl.
  - intros [= <-]. exact H.
  - destruct (check_boards w channel boards s) as [t|e] eqn:E; simpl; [|discriminate].
    apply IH.
    + intros ch bs b id u Hin. apply Hstep. right. exact Hin.
    + apply (check_boards_inv channel boards) with (s := s); [|exact H | exact E].
      intros b id u Hb. apply (Hstep channel boards). left. reflexivity. exact Hb.
Qed.

End LoopInvariant.

(** A property of the loop state that the check of every stored board
    keeps holds at the end of the cycle. *)
Lemma poll_cycle_inv (w : World) (P : Cycle -> Prop) (c : Config) (e : CycleEnd) :
  (forall channel boards board board_id s,
      In (channel, boards) (channels c) -> In board boards ->
      Str.re_search (snd board) = Some board_id -> P s ->
      P (checked channel board_id (w (List.length (requested s))) s)) ->
  P (mkCycle c 0 [] []) ->
  poll_cycle w c = Done e ->
  exists s, P s /\ e = mkCycleEnd (commit_cycle (cfg s)) (sent s) (requested s) (drift_time s)
                        (refresh_interval (cfg s) - inject_Z (drift_time s))%Q.
Proof.
  intros Hstep H0 H. unfold poll_cycle in H.
  destruct (check_channels w (channels c) (mkCycle c 0 [] [])) as [s|x] eqn:E;
    simpl in H; [|discriminate].
  exists s. split; [|injection H as <-; reflexivity].
  exact (check_channels_inv w P (channels c) Hstep _ s H0 E).
Qed.

(** ** What a cycle leaves of the configuration *)

Lemma run_mids_app (ms ms' : list MidCycle) (c : Config) :
  run_mids (ms ++ ms') c = run_mids ms' (run_mids ms c).
Proof. unfold run_mids. apply fold_left_app. Qed.

Lemma run_mids_channels (ms : list MidCycle) (c : Config) :
  channels (run_mids ms c) = channels c \/ channels (run_mids ms c) = [].
Proof.
  revert c. induction ms as [|m ms IH]; intros c; [left; reflexivity|].
  change (run_mids (m :: ms) c) with (run_mids ms (run_mid m c)).
  destruct (IH (run_mid m c)) as [E | E]; [|right; exact E].
  rewrite E. destruct m; [left | right]; reflexivity.
Qed.

(** ** Drift, sleep and messages of a whole cycle *)

Lemma board_messages_length (channel : Z) (io : BoardIO) (c : Config) :
  List.length (board_messages channel io c) =
  match collect_cards c (board_actions io) [] with
  | [] => 0%nat
  | cards => S (List.length cards)
  end.
Proof.
  unfold board_messages, card_messages.
  destruct (collect_cards c (board_actions io) []); [reflexivity|].
  cbn [List.length]. rewrite length_map. reflexivity.
Qed.

(** X6. At the end of a cycle [drift_time] is at least 0 and at most the
    number of messages the cycle sent, and it is 0 exactly when the cycle
    sent nothing; so the argument of the closing sleep is at most
    [refresh_interval] and at least [refresh_interval] minus the number of
    messages sent. *)
Theorem drift_within_messages (w : World) (c : Config) (e : CycleEnd) :
  poll_cycle w c = Done e ->
  0 <= drift e <= Z.of_nat (List.length (messages e)) /\
  (drift e = 0 <-> messages e = []) /\
  (refresh_interval (config_after e) - inject_Z (Z.of_nat (List.length (messages e)))
   <= sleep_arg e)%Q /\
  (sleep_arg e <= refresh_interval (config_after e))%Q.
Proof.
  intros H.
  destruct (poll_cycle_inv w
              (fun s => 0 <= drift_time s <= Z.of_nat (List.length (sent s)) /\
                        (drift_time s = 0 <-> sent s = []))
              c e) as (s & (Hb & Hz) & ->); [| | exact H |].
  - intros channel boards board board_id s _ _ _ (Hb & Hz). unfold checked.
    destruct (status (w (List.length (requested s))) =? 200);
      cbn [drift_time sent]; [|auto].
    rewrite length_app, board_messages_length. unfold board_messages.
    destruct (collect_cards _ (board_actions (w (List.length (requested s)))) [])
      as [|card cards].
    + rewrite app_nil_r, Nat.add_0_r. auto.
    + split; [cbn [List.length]; lia|]. split; [cbn [List.length]; lia|].
      intros E. apply app_eq_nil in E. destruct E as [_ E]. discriminate.
  - cbn. split; [lia | split; reflexivity].
  - cbn [drift messages sleep_arg config_after commit_cycle refresh_interval].
    split; [exact Hb|]. split; [exact Hz|].
    destruct Hb as [H0 H1]. rewrite Zle_Qle in H0, H1.
    change (inject_Z 0) with 0%Q in H0.
    split; lra.
Qed.

Lemma drift_within_messages_witness :
  0 <= 2 <= Z.of_nat 4 /\
  (2 = 0 <->
   [(1, Header (1000 - 3600)%Q); (1, CardLink "https://trello.com/c/card1");
    (1, Header (1000 - 3600)%Q); (1, CardLink "https://trello.com/c/card1")] = []) /\
  (refresh_interval (commit_cycle Scenario.two_boards) - inject_Z (Z.of_nat 4)
   <= 3600 - 2)%Q /\
  (3600 - 2 <= refresh_interval (commit_cycle Scenario.two_boards))%Q.
Proof.
  apply (drift_within_messages Scenario.one_card_each Scenario.two_boards
           (mkCycleEnd (commit_cycle Scenario.two_boards)
              [(1, Header (1000 - 3600)%Q); (1, CardLink "https://trello.com/c/card1");
               (1, Header (1000 - 3600)%Q); (1, CardLink "https://trello.com/c/card1")]
              ["AAA"; "BBB"] 2 (3600 - 2)%Q)).
  reflexivity.
Defined.

Lemma board_messages_justified (w : World) (n : nat) (channel : Z) (c : Config) m :
  status (w n) = 200 ->
  In m (board_messages channel (w n) c) ->
  fst m = channel /\ justified w (prev_refresh_interval c) (snd m).
Proof.
  intros St. unfold board_messages.
  pose proof (collect_cards_In c (board_actions (w n)) []) as HIn.
  destruct (collect_cards c (board_actions (w n)) []) as [|card cards] eqn:E; [intros []|].
  intros [<- | Hm].
  - split; [reflexivity|]. cbn. exists n. auto.
  - unfold card_messages in Hm. apply in_map_iff in Hm. destruct Hm as (u & <- & Hu).
    split; [reflexivity|]. cbn [snd justified].
    apply HIn in Hu. destruct Hu as [[] | ((now, a) & Hx & Eu)].
    unfold kept in Hx. apply filter_In in Hx. destruct Hx as [Hx W].
    cbn [fst snd] in *. apply in_window_spec in W.
    exists n, now, a. auto.
Qed.

(** X7. Every message of a cycle goes to a channel that was a key of the
    registry when the cycle started, and is either a header naming the
    clock reading minus the [prev_refresh_interval] the cycle started with,
    or the link of a card that has, in a query answered with status 200, an
    action no older than that [prev_refresh_interval]. *)
Theorem messages_are_justified (w : World) (c : Config) (e : CycleEnd) :
  poll_cycle w c = Done e ->
  forall channel m,
    In (channel, m) (messages e) ->
    (exists boards, In (channel, boards) (channels c)) /\
    justified w (prev_refresh_interval c) m.
Proof.
  intros H.
  destruct (poll_cycle_inv w
              (fun s => prev_refresh_interval (cfg s) = prev_refresh_interval c /\
                        forall channel m, In (channel, m) (sent s) ->
                          (exists boards, In (channel, boards) (channels c)) /\
                          justified w (prev_refresh_interval c) m)
              c e) as (s & (_ & Hs) & ->); [| | exact H | exact Hs].
  - intros channel boards board board_id s Hc _ _ (Hp & Hs). unfold checked.
    destruct (status (w (List.length (requested s))) =? 200) eqn:St;
      cbn [cfg sent]; rewrite !run_mids_prev; [|auto].
    split; [exact Hp|]. intros ch m Hm. apply in_app_or in Hm.
    destruct Hm as [Hm | Hm]; [exact (Hs ch m Hm)|].
    apply Z.eqb_eq in St.
    destruct (board_messages_justified w _ channel _ (ch, m) St Hm) as [E J].
    cbn [fst snd] in E, J. subst ch. rewrite run_mids_prev, Hp in J.
    split; [exists boards; exact Hc | exact J].
  - split; [reflexivity | intros ch m []].
Qed.

Lemma messages_are_justified_witness :
  (exists boards, In (2, boards) (channels Scenario.three_boards)) /\
  justified Scenario.first_query_fails (prev_refresh_interval Scenario.three_boards)
            (CardLink "https://trello.com/c/card1").
Proof.
  apply (messages_are_justified Scenario.first_query_fails Scenario.three_boards
           (mkCycleEnd (commit_cycle Scenario.three_boards)
              [(2, Header (1000 - 3600)%Q); (2, CardLink "https://trello.com/c/card1")]
              ["AAA"; "CCC"] 2 (3600 - 2)%Q)).
  - reflexivity.
  - right. left. reflexivity.
Defined.

(** X8. Every action that a query of the cycle answered with status 200
    lists and that is no older than the [prev_refresh_interval] the cycle
    started with has the link of its card among the messages of the
    cycle. *)
Theorem answered_actions_are_reported (w : World) (c : Config) (e : CycleEnd) :
  poll_cycle w c = Done e ->
  forall n now a,
    (n < List.length (queried e))%nat ->
    status (w n) = 200 ->
    In (now, a) (board_actions (w n)) ->
    (now - prev_refresh_interval c <= date a)%Q ->
    exists channel, In (channel, CardLink (card_url a)) (messages e).
Proof.
  intros H.
  destruct (poll_cycle_inv w
              (fun s => prev_refresh_interval (cfg s) = prev_refresh_interval c /\
                        forall n now a,
                          (n < List.length (requested s))%nat ->
                          status (w n) = 200 ->
                          In (now, a) (board_actions (w n)) ->
                          (now - prev_refresh_interval c <= date a)%Q ->
                          exists channel, In (channel, CardLink (card_url a)) (sent s))
              c e) as (s & (_ & Hs) & ->); [| | exact H | exact Hs].
  - intros channel boards board board_id s _ _ _ (Hp & Hs). unfold checked.
    destruct (status (w (List.length (requested s))) =? 200) eqn:St;
      cbn [cfg sent requested]; rewrite !run_mids_prev; (split; [exact Hp|]);
      intros n now a Hn S200 Ha Hw; rewrite length_app, Nat.add_1_r in Hn;
      destruct (Nat.eq_dec n (List.length (requested s))) as [-> | Hne].
    + exists channel. apply in_or_app. right. unfold board_messages.
      pose proof (collect_cards_In
                    (run_mids (during_fetch (w (List.length (requested s)))) (cfg s))
                    (board_actions (w (List.length (requested s)))) []) as HIn.
      assert (Hc : In (card_url a)
                (collect_cards
                   (run_mids (during_fetch (w (List.length (requested s)))) (cfg s))
                   (board_actions (w (List.length (requested s)))) [])).
      { apply HIn. right. exists (now, a). split; [|reflexivity].
        unfold kept. apply filter_In. split; [exact Ha|]. cbn [fst snd].
        apply in_window_spec. rewrite run_mids_prev, Hp. exact Hw. }
      destruct (collect_cards _ (board_actions (w (List.length (requested s)))) []);
        [destruct Hc|].
      right. unfold card_messages. apply in_map_iff. exists (card_url a). auto.
    + destruct (Hs n now a) as [ch Hch]; auto; [lia|].
      exists ch. apply in_or_app. left. exact Hch.
    + rewrite S200 in St. discriminate.
    + apply (Hs n now a); auto. lia.
  - split; [reflexivity|]. intros n now a Hn. cbn in Hn. lia.
Qed.

Lemma answered_actions_are_reported_witness :
  exists channel,
    In (channel, CardLink (card_url (mkAction 990 "card1")))
       [(2, Header (1000 - 3600)%Q); (2, CardLink "https://trello.com/c/card1")].
Proof.
  apply (answered_actions_are_reported Scenario.first_query_fails Scenario.three_boards
           (mkCycleEnd (commit_cycle Scenario.three_boards)
              [(2, Header (1000 - 3600)%Q); (2, CardLink "https://trello.com/c/card1")]
              ["AAA"; "CCC"] 2 (3600 - 2)%Q)) with (n := 1%nat) (now := 1000%Q).
  - reflexivity.
  - cbn. lia.
  - reflexivity.
  - left. reflexivity.
  - cbn. discriminate.
Defined.

(** ** The queries of a cycle *)

Lemma check_boards_requested (w : World) (channel : Z) (boards : list Board) :
  forall s s',
    check_boards w channel boards s = Done s' ->
    exists k, requested s' = (requested s ++ firstn k (ids_of boards))%list.
Proof.
  induction boards as [|board rest IH]; intros s s'; simpl.
  - intros [= <-]. exists 0%nat. rewrite app_nil_r. reflexivity.
  - unfold ids_of. cbn [flat_map].
    destruct (Str.re_search (snd board)) as [board_id|]; [|discriminate].
    rewrite check_board_eq.
    destruct (status (w (List.length (requested s))) =? 200) eqn:St.
    + intros H. destruct (IH _ _ H) as [k E]. exists (S k).
      rewrite E. unfold checked. rewrite St. cbn [requested app firstn].
      rewrite <- app_assoc. reflexivity.
    + intros [= <-]. exists 1%nat. unfold checked. rewrite St. reflexivity.
Qed.

Lemma ids_of_length (boards : list Board) :
  (List.length (ids_of boards) <= List.length boards)%nat.
Proof.
  unfold ids_of. induction boards as [|board rest IH]; simpl; [lia|].
  rewrite length_app. destruct (Str.re_search (snd board)); simpl; lia.
Qed.

Lemma ids_of_app (boards boards' : list Board) :
  ids_of (boards ++ boards') = (ids_of boards ++ ids_of boards')%list.
Proof. unfold ids_of. apply flat_map_app. Qed.

Lemma check_channels_requested (w : World) (items : Channels) :
  forall s s',
    check_channels w items s = Done s' ->
    exists ids, requested s' = (requested s ++ ids)%list /\
                (List.length ids <= List.length (all_boards items))%nat /\
                incl ids (ids_of (all_boards items)).
Proof.
  unfold all_boards.
  induction items as [|[channel boards] rest IH]; intros s s'; simpl.
  - intros [= <-]. exists []. rewrite app_nil_r. split; [reflexivity|].
    split; [simpl; lia | intros x []].
  - destruct (check_boards w channel boards s) as [t|e] eqn:E; simpl; [|discriminate].
    intros H. destruct (check_boards_requested w channel boards s t E) as [k Ek].
    destruct (IH t s' H) as (ids & Ei & Hl & Hi).
    exists (firstn k (ids_of boards) ++ ids)%list.
    rewrite Ei, Ek, <- app_assoc. split; [reflexivity|]. split.
    + rewrite !length_app, length_firstn.
      pose proof (ids_of_length boards). lia.
    + rewrite ids_of_app. apply incl_app.
      * apply incl_appl. intros x Hx.
        rewrite <- (firstn_skipn k (ids_of boards)). apply in_or_app. left. exact Hx.
      * apply incl_appr. exact Hi.
Qed.

Lemma check_boards_all_answered (w : World) (channel : Z) (boards : list Board) :
  (forall n, status (w n) = 200) ->
  forall s s',
    check_boards w channel boards s = Done s' ->
    requested s' = (requested s ++ ids_of boards)%list /\
    List.length (ids_of boards) = List.length boards.
Proof.
  intros A. induction boards as [|board rest IH]; intros s s'; simpl.
  - intros [= <-]. rewrite app_nil_r. auto.
  - unfold ids_of. cbn [flat_map].
    destruct (Str.re_search (snd board)) as [board_id|]; [|discriminate].
    rewrite check_board_eq, A. cbn [Z.eqb Pos.eqb].
    intros H. destruct (IH _ _ H) as [E L].
    rewrite E. unfold checked. rewrite A. cbn [Z.eqb Pos.eqb requested app List.length].
    rewrite <- app_assoc. split; [reflexivity|]. f_equal. exact L.
Qed.

Lemma check_channels_all_answered (w : World) (items : Channels) :
  (forall n, status (w n) = 200) ->
  forall s s',
    check_channels w items s = Done s' ->
    requested s' = (requested s ++ ids_of (all_boards items))%list /\
    List.length (ids_of (all_boards items)) = List.length (all_boards items).
Proof.
  intros A. unfold all_boards.
  induction items as [|[channel boards] rest IH]; intros s s'; simpl.
  - intros [= <-]. rewrite app_nil_r. auto.
  - destruct (check_boards w channel boards s) as [t|e] eqn:E; simpl; [|discriminate].
    intros H. destruct (check_boards_all_answered w channel boards A s t E) as [Eb Lb].
    destruct (IH t s' H) as [Er Lr].
    rewrite ids_of_app, !length_app, Er, Eb, <- app_assoc, Lb, Lr.
    split; reflexivity.
Qed.

(** X9. In a cycle during which no [watch_board] registers a board (the
    handlers run meanwhile are [set_refresh_interval] and [reset_bot]), the
    loop sends one query per board it visits and none twice: the queries
    number at most the boards the registry had when the cycle started, and
    every identifier queried is the one the pattern search finds in a URL
    stored then. When every query is answered with status 200 the
    identifiers queried are those of all these boards, one per board, in the
    order in which the registry iterates. *)
Theorem queries_follow_the_registry (w : World) (c : Config) (e : CycleEnd) :
  poll_cycle w c = Done e ->
  (List.length (queried e) <= List.length (all_boards (channels c)))%nat /\
  (forall board_id, In board_id (queried e) ->
     exists board, In board (all_boards (channels c)) /\
                   Str.re_search (snd board) = Some board_id) /\
  ((forall n, status (w n) = 200) ->
   queried e = ids_of (all_boards (channels c)) /\
   List.length (queried e) = List.length (all_boards (channels c))).
Proof.
  intros H. unfold poll_cycle in H.
  destruct (check_channels w (channels c) (mkCycle c 0 [] [])) as [s|x] eqn:E;
    simpl in H; [|discriminate].
  injection H as <-. cbn [queried].
  destruct (check_channels_requested w (channels c) _ s E) as (ids & Ei & Hl & Hi).
  cbn [requested app] in Ei. subst ids. split; [exact Hl|]. split.
  - intros board_id Hq. apply Hi in Hq. unfold ids_of in Hq.
    apply in_flat_map in Hq. destruct Hq as (board & Hb & Hq).
    exists board. split; [exact Hb|].
    destruct (Str.re_search (snd board)); [|destruct Hq].
    destruct Hq as [-> | []]. reflexivity.
  - intros A. destruct (check_channels_all_answered w (channels c) A _ s E) as [Er Lr].
    cbn [requested app] in Er. rewrite Er. auto.
Qed.

Lemma queries_follow_the_registry_witness :
  (2 <= List.length (all_boards (channels Scenario.two_boards)))%nat /\
  (forall board_id, In board_id ["AAA"; "BBB"] ->
     exists board, In board (all_boards (channels Scenario.two_boards)) /\
                   Str.re_search (snd board) = Some board_id) /\
  ((forall n, status (Scenario.one_card_each n) = 200) ->
   ["AAA"; "BBB"] = ids_of (all_boards (channels Scenario.two_boards)) /\
   2%nat = List.length (all_boards (channels Scenario.two_boards))).
Proof.
  apply (queries_follow_the_registry Scenario.one_card_each Scenario.two_boards
           (mkCycleEnd (commit_cycle Scenario.two_boards)
              [(1, Header (1000 - 3600)%Q); (1, CardLink "https://trello.com/c/card1");
               (1, Header (1000 - 3600)%Q); (1, CardLink "https://trello.com/c/card1")]
              ["AAA"; "BBB"] 2 (3600 - 2)%Q)).
  reflexivity.
Defined.

(** ** Stored URLs *)

Lemma all_boards_set_In (d : Channels) (k : Z) (v : WatchSet) (board : Board) :
  In board (all_boards (Dict.set d k v)) -> In board v \/ In board (all_boards d).
Proof.
  unfold all_boards. induction d as [|[k' v'] rest IH]; simpl.
  - rewrite app_nil_r. auto.
  - destruct (Z.eqb k' k); simpl; rewrite !in_app_iff; intros [H | H]; auto.
    destruct (IH H); auto.
Qed.

Lemma register_board_In (d : Channels) (k : Z) (new board : Board) :
  In board (all_boards (register_board k new d)) ->
  board = new \/ In board (all_boards d).
Proof.
  unfold register_board. intros H.
  assert (G : forall old, Dict.get d k = Some old -> incl old (all_boards d)).
  { unfold all_boards. clear H. induction d as [|[k' v'] rest IH]; simpl; [discriminate|].
    intros old. destruct (Z.eqb k' k).
    - intros [= ->]. apply incl_appl, incl_refl.
    - intros E. apply incl_appr. exact (IH old E). }
  destruct (Dict.get d k) as [[|b bs]|] eqn:E;
    apply all_boards_set_In in H; destruct H as [H | H]; auto.
  - destruct H as [<- | []]. auto.
  - apply set_add_iff in H. destruct H as [-> | H]; [auto|].
    right. exact (G _ eq_refl _ H).
  - destruct H as [<- | []]. auto.
Qed.

Lemma watch_board_finish_parse channel_id board_url lk (c : Config) :
  Str.re_search board_url <> None ->
  all_parse (channels c) ->
  all_parse (channels (fst (watch_board_finish channel_id board_url lk c))).
Proof.
  intros P H. destruct lk; simpl; try exact H.
  unfold all_parse in *. rewrite Forall_forall in *. intros board Hb.
  apply register_board_In in Hb. destruct Hb as [-> | Hb]; [exact P | exact (H _ Hb)].
Qed.

Lemma poll_cycle_channels (w : World) (c : Config) (e : CycleEnd) :
  poll_cycle w c = Done e ->
  channels (config_after e) = channels c \/ channels (config_after e) = [].
Proof.
  intros H.
  destruct (poll_cycle_inv w
              (fun s => channels (cfg s) = channels c \/ channels (cfg s) = [])
              c e) as (s & Hs & ->); [| left; reflexivity | exact H | exact Hs].
  intros channel boards board board_id s _ _ _ Hs. unfold checked.
  assert (R : forall ms c0, (channels c0 = channels c \/ channels c0 = []) ->
                channels (run_mids ms c0) = channels c \/ channels (run_mids ms c0) = []).
  { intros ms c0 [E | E]; destruct (run_mids_channels ms c0) as [E' | E'];
      rewrite E'; auto. }
  destruct (status (w (List.length (requested s))) =? 200); cbn [cfg]; auto.
Qed.

Lemma step_parse (c c' : Config) :
  step c c' -> all_parse (channels c) -> all_parse (channels c').
Proof.
  intros S H. destruct S as [c | c minutes | c gb ch url | c ch url lk P | c w e P].
  - constructor.
  - exact H.
  - unfold watch_board. destruct (Str.re_search url) as [board_id|] eqn:E; [|exact H].
    destruct (find_watching (channels c) url); [exact H|].
    apply watch_board_finish_parse; [congruence | exact H].
  - apply watch_board_finish_parse; assumption.
  - destruct (poll_cycle_channels w c e P) as [-> | ->]; [exact H | constructor].
Qed.

Lemma reachable_parse (c : Config) : reachable c -> all_parse (channels c).
Proof.
  induction 1 as [|c c' R IH S]; [constructor | exact (step_parse c c' S IH)].
Qed.

Lemma check_boards_returns (w : World) (channel : Z) (boards : list Board) :
  Forall (fun board => Str.re_search (snd board) <> None) boards ->
  forall s, exists s', check_boards w channel boards s = Done s'.
Proof.
  induction 1 as [|board rest Hb Hrest IH]; intros s; simpl; [eauto|].
  destruct (Str.re_search (snd board)) as [board_id|]; [|contradiction].
  rewrite check_board_eq.
  destruct (status (w (List.length (requested s))) =? 200); eauto.
Qed.

Lemma check_channels_returns (w : World) (items : Channels) :
  all_parse items -> forall s, exists s', check_channels w items s = Done s'.
Proof.
  unfold all_parse, all_boards.
  induction items as [|[channel boards] rest IH]; intros H s; simpl; [eauto|].
  simpl in H. apply Forall_app in H. destruct H as [Hb Hr].
  destruct (check_boards_returns w channel boards Hb s) as [t ->]. simpl.
  exact (IH Hr t).
Qed.

(** X10. Every URL stored in a registry reached from the empty one through
    the handlers and the poll loop passes the pattern search, so the
    [group(1)] of the poll loop is never called on [None]: no cycle run on
    such a registry raises [AttributeError]. *)
Theorem stored_urls_always_parse (c : Config) :
  reachable c ->
  all_parse (channels c) /\
  forall w, poll_cycle w c <> Raised AttributeError.
Proof.
  intros R. pose proof (reachable_parse c R) as H. split; [exact H|].
  intros w. unfold poll_cycle.
  destruct (check_channels_returns w (channels c) H (mkCycle c 0 [] [])) as [s ->].
  simpl. discriminate.
Qed.

Lemma stored_urls_always_parse_witness :
  all_parse (channels Scenario.three_boards) /\
  forall w, poll_cycle w Scenario.three_boards <> Raised AttributeError.
Proof.
  apply (stored_urls_always_parse Scenario.three_boards).
  apply (reach_step Scenario.two_boards); [|apply step_watch].
  apply (reach_step (Scenario.watch 1 "https://trello.com/b/AAA/first" initial_config));
    [|apply step_watch].
  apply (reach_step initial_config); [apply reach_init | apply step_watch].
Defined.

(** ** One board, one URL *)

Lemma lowered_urls_fresh (d : Channels) (url : string) :
  find_watching d url = None -> ~ In (Str.lower url) (lowered_urls d).
Proof.
  intros N Hin. rewrite find_watching_None in N.
  unfold lowered_urls in Hin. apply in_map_iff in Hin.
  destruct Hin as (board & E & Hb). pose proof (N board Hb) as F.
  unfold same_url in F. rewrite E, String.eqb_refl in F. discriminate.
Qed.

Lemma register_board_urls (d : Channels) (k : Z) (name url : string) :
  find_watching d url = None ->
  Permutation (lowered_urls (register_board k (name, url) d))
              (Str.lower url :: lowered_urls d).
Proof.
  intros N. rewrite (register_board_fresh d k name url N). unfold lowered_urls.
  destruct (Dict.get d k) as [old|] eqn:G.
  - rewrite (DictFacts.all_boards_set_present d k old [(name, url)] G). reflexivity.
  - rewrite (DictFacts.all_boards_set_absent d k _ G). cbn [app].
    rewrite map_app. cbn [map snd]. symmetry. apply Permutation_cons_append.
Qed.

Lemma atomic_step_unique (c c' : Config) :
  atomic_step c c' ->
  NoDup (lowered_urls (channels c)) -> NoDup (lowered_urls (channels c')).
Proof.
  intros S H. destruct S as [c | c minutes | c gb ch url | c w e P].
  - constructor.
  - exact H.
  - unfold watch_board. destruct (Str.re_search url) as [board_id|]; [|exact H].
    destruct (find_watching (channels c) url) eqn:N; [exact H|].
    destruct (gb board_id) as [name| |]; simpl; try exact H.
    apply (Permutation_NoDup (l := Str.lower url :: lowered_urls (channels c))).
    + symmetry. apply register_board_urls. exact N.
    + constructor; [apply lowered_urls_fresh; exact N | exact H].
  - destruct (poll_cycle_channels w c e P) as [-> | ->]; [exact H | constructor].
Qed.

(** X11. As long as every handler runs to its end before the next one
    starts, no two boards of the registry, in the same channel or in
    different ones, have URLs that are equal up to case. *)
Theorem urls_are_unique (c : Config) :
  atomic_reachable c -> NoDup (lowered_urls (channels c)).
Proof.
  induction 1 as [|c c' R IH S]; [constructor | exact (atomic_step_unique c c' S IH)].
Qed.

Lemma urls_are_unique_witness : NoDup (lowered_urls (channels Scenario.three_boards)).
Proof.
  apply (urls_are_unique Scenario.three_boards).
  apply (atomic_next Scenario.two_boards); [|apply atomic_watch].
  apply (atomic_next (Scenario.watch 1 "https://trello.com/b/AAA/first" initial_config));
    [|apply atomic_watch].
  apply (atomic_next initial_config); [apply atomic_init | apply atomic_watch].
Defined.

(** ** The window and the set of cards *)

Lemma kept_In (c : Config) (actions : list (Q * Action)) (x : Q * Action) :
  In x (kept c actions) <->
  In x actions /\ (fst x - prev_refresh_interval c <= date (snd x))%Q.
Proof. unfold kept. rewrite filter_In, in_window_spec. reflexivity. Qed.



(** ** The board identifier *)

Module GroupFacts.
Import Str.

Lemma one_line_app (a b : string) :
  one_line (a ++ b) = (one_line a && one_line b)%bool.
Proof.
  induction a as [|c a IH]; simpl; [reflexivity|].
  rewrite IH, andb_assoc. reflexivity.
Qed.

Lemma dot_star_split (s : string) :
  exists rest, s = dot_star s ++ rest /\ dot_star rest = EmptyString.
Proof.
  induction s as [|c r (rest & E & D)]; simpl.
  - exists EmptyString. auto.
  - destruct (Ascii.eqb c newline) eqn:N.
    + exists (String c r). simpl. rewrite N. auto.
    + exists rest. simpl. rewrite <- E. auto.
Qed.

Lemma upto_last_slash_greedy (t g : string) :
  upto_last_slash t = Some g ->
  exists post, t = g ++ String slash post /\ no_slash post = true.
Proof.
  revert g. induction t as [|c r IH]; intros g; simpl; [discriminate|].
  destruct (upto_last_slash r) as [g'|] eqn:U.
  - intros [= <-]. destruct (IH g' eq_refl) as (post & E & N).
    exists post. simpl. rewrite <- E. auto.
  - destruct (Ascii.eqb_spec c slash) as [-> | _]; [|discriminate].
    intros [= <-]. exists r. split; [reflexivity|].
    clear IH. induction r as [|c r IH]; simpl in *; [reflexivity|].
    destruct (upto_last_slash r); [discriminate|].
    destruct (Ascii.eqb c slash); [discriminate|]. simpl. apply IH. reflexivity.
Qed.

Lemma match_here_greedy (s g : string) :
  match_here s = Some g ->
  exists post, s = segment EmptyString g post /\ one_line g = true /\
               no_slash (dot_star post) = true.
Proof.
  destruct s as [|c1 [|c2 r]]; simpl; try discriminate.
  destruct (Ascii.eqb_spec c1 "b"%char) as [-> | _]; [|discriminate].
  destruct (Ascii.eqb_spec c2 slash) as [-> | _]; [|discriminate].
  simpl. intros H. apply upto_last_slash_greedy in H. destruct H as (post & E & N).
  destruct (dot_star_split r) as (rest & R & D).
  pose proof (StrFacts.dot_star_one_line r) as L. rewrite E, one_line_app in L.
  apply andb_true_iff in L. destruct L as [Lg Lp]. simpl in Lp.
  exists (post ++ rest). split; [|split].
  - unfold segment. simpl. do 2 f_equal.
    rewrite R at 1. rewrite E, StrFacts.append_assoc. reflexivity.
  - exact Lg.
  - rewrite StrFacts.dot_star_app, D by exact Lp.
    replace (post ++ EmptyString) with post; [exact N|].
    clear. induction post as [|c p IH]; simpl; [|rewrite <- IH]; reflexivity.
Qed.

End GroupFacts.

(** X1. [watch_board] answers that the URL is incorrect, and leaves the
    configuration as it is, exactly for the URLs that hold nowhere the
    characters b and slash followed, on the same line, by a slash. *)
Theorem incorrect_url_exactly_without_segment get_board channel_id board_url (c : Config) :
  watch_board get_board channel_id board_url c = (c, Some IncorrectBoardURL) <->
  forall pre g post, one_line g = true -> board_url <> segment pre g post.
Proof.
  rewrite <- StrFacts.re_search_None_iff. unfold watch_board.
  destruct (Str.re_search board_url) as [board_id|]; [|split; reflexivity].
  split; [|discriminate].
  destruct (find_watching (channels c) board_url); [discriminate|].
  destruct (get_board board_id); simpl; discriminate.
Qed.

(** X2. The identifier found in a URL starts after the first b and slash
    from which the pattern matches and runs to the last slash of that line:
    it holds no line feed, no slash follows it on the line but the one that
    ends it, and the pattern matches at no earlier position. *)
Theorem board_id_runs_to_the_last_slash_of_the_line (s g : string) :
  Str.re_search s = Some g ->
  exists pre post,
    s = segment pre g post /\
    one_line g = true /\
    no_slash (Str.dot_star post) = true /\
    forall pre1 pre2,
      pre = pre1 ++ pre2 -> pre2 <> EmptyString ->
      Str.match_here (segment pre2 g post) = None.
Proof.
  induction s as [|c r IH]; [discriminate|].
  cbn [Str.re_search]. destruct (Str.match_here (String c r)) as [g'|] eqn:M.
  - intros [= <-]. apply GroupFacts.match_here_greedy in M.
    destruct M as (post & E & L & N).
    exists EmptyString, post. split; [exact E|]. split; [exact L|]. split; [exact N|].
    intros pre1 pre2 Hp Hn. destruct pre1; simpl in Hp; [congruence | discriminate].
  - intros H. destruct (IH H) as (pre & post & E & L & N & F).
    exists (String c pre), post. split; [unfold segment in *; simpl; rewrite E; reflexivity|].
    split; [exact L|]. split; [exact N|].
    intros pre1 pre2 Hp Hn. destruct pre1 as [|c1 pre1]; simpl in Hp.
    + subst pre2.
      change (segment (String c pre) g post) with (String c (segment pre g post)).
      rewrite <- E. exact M.
    + injection Hp as _ Hp. exact (F pre1 pre2 Hp Hn).
Qed.

Lemma board_id_runs_to_the_last_slash_of_the_line_witness :
  exists pre post,
    "https://trello.com/b/ABC123/my-board/" = segment pre "ABC123/my-board" post /\
    one_line "ABC123/my-board" = true /\
    no_slash (Str.dot_star post) = true /\
    forall pre1 pre2,
      pre = pre1 ++ pre2 -> pre2 <> EmptyString ->
      Str.match_here (segment pre2 "ABC123/my-board" post) = None.
Proof.
  apply (board_id_runs_to_the_last_slash_of_the_line
           "https://trello.com/b/ABC123/my-board/" "ABC123/my-board").
  reflexivity.
Defined.

(** ** The text of [list_boards] *)

Module TextFacts.
Import Text.

Lemma length_append (a b : string) :
  String.length (a ++ b) = (String.length a + String.length b)%nat.
Proof. induction a as [|c a IH]; simpl; [reflexivity | rewrite IH; reflexivity]. Qed.

Lemma append_cancel (a x y : string) : a ++ x = a ++ y -> x = y.
Proof. induction a as [|c a IH]; simpl; [auto | intros [= H]; auto]. Qed.

Lemma board_lines_length (boards : WatchSet) :
  forall summary,
    (String.length summary <= String.length (board_lines summary boards))%nat.
Proof.
  unfold board_lines. induction boards as [|board rest IH]; intros summary; simpl; [lia|].
  etransitivity; [|apply IH]. rewrite length_append. lia.
Qed.

Lemma channel_blocks_length (channel_name : Z -> string) (items : Channels) :
  forall summary,
    (String.length summary + List.length items
     <= String.length (channel_blocks channel_name summary items))%nat.
Proof.
  unfold channel_blocks.
  induction items as [|item rest IH]; intros summary; cbn [fold_left List.length]; [lia|].
  etransitivity; [|apply IH]. rewrite length_append.
  pose proof (board_lines_length (snd item)
                (summary ++ "**#" ++ channel_name (fst item) ++ "**" ++ nl)) as B.
  rewrite length_append in B. change (String.length nl) with 1%nat. lia.
Qed.

End TextFacts.

Lemma no_empty_set_get (d : Channels) (k : Z) :
  no_empty_set d -> Dict.get d k <> Some [].
Proof.
  induction 1 as [|[k' v'] rest Hx Hrest IH]; simpl; [discriminate|].
  destruct (Z.eqb k' k); [|exact IH]. intros [= E]. exact (Hx E).
Qed.

Lemma reachable_no_empty_set (c : Config) : reachable c -> no_empty_set (channels c).
Proof.
  induction 1 as [|c c' R IH S]; [constructor | exact (step_no_empty c c' S IH)].
Qed.

(** X14. In a configuration reached from the initial one, [list_boards]
    for the current channel answers that no boards are being watched exactly
    when the channel is not a key of the registry; and [list_boards] for all
    channels answers with the bare heading exactly when the registry is
    empty, as it is after [reset_bot]. *)
Theorem list_boards_says_nothing_watched (channel_name : Z -> string)
    (ctx_channel_id : Z) (c : Config) :
  reachable c ->
  (Text.list_boards channel_name ctx_channel_id false c = Text.no_boards <->
   Dict.get (channels c) ctx_channel_id = None) /\
  (Text.list_boards channel_name ctx_channel_id true c = "Currently watching" ++ Text.nl <->
   channels c = []) /\
  Text.list_boards channel_name ctx_channel_id true (fst (reset_bot c)) =
    "Currently watching" ++ Text.nl /\
  Text.list_boards channel_name ctx_channel_id false (fst (reset_bot c)) = Text.no_boards.
Proof.
  intros R. pose proof (no_empty_set_get _ ctx_channel_id (reachable_no_empty_set c R)) as G.
  split; [|split; [|split; reflexivity]].
  - unfold Text.list_boards.
    destruct (Dict.get (channels c) ctx_channel_id) as [[|b bs]|].
    + contradiction.
    + split; discriminate.
    + split; reflexivity.
  - unfold Text.list_boards. split.
    + intros H.
      change ("Currently watching" ++ Text.nl)
        with ("Currently watching" ++ Text.nl ++ EmptyString) in H.
      rewrite <- !StrFacts.append_assoc in H.
      apply TextFacts.append_cancel in H.
      pose proof (TextFacts.channel_blocks_length channel_name (channels c) EmptyString) as L.
      rewrite H in L. destruct (channels c); [reflexivity | simpl in L; lia].
    + intros ->. reflexivity.
Qed.

Lemma list_boards_says_nothing_watched_witness :
  (Text.list_boards (fun _ => "general") 2 false Scenario.one_board = Text.no_boards <->
   Dict.get (channels Scenario.one_board) 2 = None) /\
  (Text.list_boards (fun _ => "general") 2 true Scenario.one_board =
     "Currently watching" ++ Text.nl <->
   channels Scenario.one_board = []) /\
  Text.list_boards (fun _ => "general") 2 true (fst (reset_bot Scenario.one_board)) =
    "Currently watching" ++ Text.nl /\
  Text.list_boards (fun _ => "general") 2 false (fst (reset_bot Scenario.one_board)) =
    Text.no_boards.
Proof.
  apply (list_boards_says_nothing_watched (fun _ => "general") 2 Scenario.one_board).
  apply (reach_step initial_config); [apply reach_init | apply step_watch].
Defined.

(** ** The window, from the configuration to the messages *)

Lemma collect_cards_window (c : Config) (actions : list (Q * Action)) (u : string) :
  In u (collect_cards c actions []) <->
  exists now a, In (now, a) actions /\ card_url a = u /\
                (now - prev_refresh_interval c <= date a)%Q.
Proof.
  rewrite collect_cards_In. split.
  - intros [[] | ((now, a) & Hx & E)]. apply kept_In in Hx. destruct Hx as [Hx W].
    exists now, a. auto.
  - intros (now & a & Hx & E & W). right. exists (now, a). split; [|exact E].
    apply kept_In. auto.
Qed.

Lemma board_messages_links (channel ch : Z) (io : BoardIO) (c : Config) (u : string) :
  In (ch, CardLink u) (board_messages channel io c) <->
  ch = channel /\ In u (collect_cards c (board_actions io) []).
Proof.
  unfold board_messages, card_messages.
  destruct (collect_cards c (board_actions io) []) as [|card cards].
  - split; [intros [] | intros [_ []]].
  - split.
    + intros [H | H]; [discriminate|]. apply in_map_iff in H.
      destruct H as (v & [= <- <-] & Hv). auto.
    + intros [-> H]. right. apply in_map_iff. exists u. auto.
Qed.

Lemma board_messages_headers (channel ch : Z) (io : BoardIO) (c : Config) (since : Q) :
  In (ch, Header since) (board_messages channel io c) ->
  since = (header_now io - prev_refresh_interval c)%Q.
Proof.
  unfold board_messages, card_messages.
  destruct (collect_cards c (board_actions io) []) as [|card cards]; [intros []|].
  intros [[= _ <-] | H]; [reflexivity|].
  apply in_map_iff in H. destruct H as (v & [=] & _).
Qed.

Lemma checked_window_kept (w : World) (p : Q) channel board_id (s : Cycle) :
  window_kept w p s ->
  window_kept w p (checked channel board_id (w (List.length (requested s))) s).
Proof.
  intros (Hp & Hl & Hh). unfold checked, window_kept.
  set (k := List.length (requested s)) in *.
  destruct (status (w k) =? 200) eqn:St; cbn [cfg sent requested];
    rewrite !run_mids_prev, length_app, Nat.add_1_r; fold k.
  - apply Z.eqb_eq in St. split; [exact Hp|]. split.
    + intros u. split.
      * intros [ch H]. apply in_app_or in H. destruct H as [H | H].
        -- assert (R : reported_in_window w p k u) by (apply Hl; eauto).
           destruct R as (n & now & a & Hn & R). exists n, now, a.
           split; [lia | exact R].
        -- apply board_messages_links in H. destruct H as [_ H].
           apply collect_cards_window in H. destruct H as (now & a & Ha & E & W).
           rewrite run_mids_prev, Hp in W. exists k, now, a. repeat split; auto.
      * intros (n & now & a & Hn & S200 & Ha & E & W).
        destruct (Nat.eq_dec n k) as [-> | Hne].
        -- exists channel. apply in_or_app. right. apply board_messages_links.
           split; [reflexivity|]. apply collect_cards_window. exists now, a.
           rewrite run_mids_prev, Hp. auto.
        -- assert (R : reported_in_window w p k u).
           { exists n, now, a. repeat split; auto. lia. }
           apply Hl in R. destruct R as [ch R]. exists ch.
           apply in_or_app. left. exact R.
    + intros ch since H. apply in_app_or in H. destruct H as [H | H].
      * destruct (Hh ch since H) as (n & Hn & R). exists n. split; [lia | exact R].
      * apply board_messages_headers in H. rewrite run_mids_prev, Hp in H.
        exists k. repeat split; auto.
  - apply Z.eqb_neq in St. split; [exact Hp|]. split.
    + intros u. rewrite Hl. split; intros (n & now & a & Hn & S200 & R);
        exists n, now, a; (split; [|split; [exact S200 | exact R]]); [lia|].
      destruct (Nat.eq_dec n k) as [-> | Hne]; [contradiction | lia].
    + intros ch since H. destruct (Hh ch since H) as (n & Hn & R).
      exists n. split; [lia | exact R].
Qed.

Lemma poll_cycle_window (w : World) (c : Config) (e : CycleEnd) :
  poll_cycle w c = Done e ->
  (forall u, (exists channel, In (channel, CardLink u) (messages e)) <->
             reported_in_window w (prev_refresh_interval c) (List.length (queried e)) u) /\
  (forall channel since, In (channel, Header since) (messages e) ->
     exists n, (n < List.length (queried e))%nat /\ status (w n) = 200 /\
               since = (header_now (w n) - prev_refresh_interval c)%Q).
Proof.
  intros H.
  destruct (poll_cycle_inv w (window_kept w (prev_refresh_interval c)) c e)
    as (s & (_ & Hl & Hh) & ->); [| | exact H | split; [exact Hl | exact Hh]].
  - intros channel boards board board_id s _ _ _ Hs. apply checked_window_kept. exact Hs.
  - split; [reflexivity|]. split.
    + intros u. split.
      * intros [ch []].
      * intros (n & now & a & Hn & _). cbn in Hn. lia.
    + intros ch since [].
Qed.

(** C1. The window of a poll cycle is [prev_refresh_interval]: an action is
    kept exactly when its date is no earlier than the clock reading minus
    [prev_refresh_interval], the cards collected from an answer are exactly
    those of the actions so kept, and over a whole cycle, whatever handlers
    run while it is in flight, the links sent are exactly those of the
    actions that the queries answered with status 200 list within the
    [prev_refresh_interval] the cycle started with, every header naming a
    clock reading minus that same value. [set_refresh_interval] writes
    [refresh_interval] only: the cycle in flight queries the boards and
    sends the messages it would have with no handler running. No handler
    changes [prev_refresh_interval]: it changes only when the poll loop
    copies [refresh_interval] into it at the end of a cycle; after
    [set_refresh_interval] and one undisturbed cycle the requested value is
    the window. *)
Theorem window_uses_previous_interval :
  (forall c now a,
      in_window c now a = true <-> (now - prev_refresh_interval c <= date a)%Q) /\
  (forall minutes c,
      let c' := fst (set_refresh_interval minutes c) in
      prev_refresh_interval c' = prev_refresh_interval c /\
      refresh_interval c' = (minutes * 60)%Q /\
      channels c' = channels c /\
      (forall now a, in_window c' now a = in_window c now a)) /\
  (forall w c,
      same_report (poll_cycle w c) (poll_cycle (fun n => quiet (w n)) c)) /\
  (forall c c',
      step c c' ->
      prev_refresh_interval c' = prev_refresh_interval c \/
      (exists w e, poll_cycle w c = Done e /\ c' = config_after e /\
                   prev_refresh_interval c' = refresh_interval c')) /\
  (forall c, prev_refresh_interval (commit_cycle c) = refresh_interval c) /\
  (forall w minutes c,
      match poll_cycle (fun n => quiet (w n)) (fst (set_refresh_interval minutes c)) with
      | Done e =>
          prev_refresh_interval (config_after e) = (minutes * 60)%Q /\
          (forall now a, in_window (config_after e) now a = true <->
                         (now - minutes * 60 <= date a)%Q)
      | Raised _ => True
      end) /\
  (forall c actions u,
      In u (collect_cards c actions []) <->
      exists now a, In (now, a) actions /\ card_url a = u /\
                    (now - prev_refresh_interval c <= date a)%Q) /\
  (forall w c e,
      poll_cycle w c = Done e ->
      (forall u, (exists channel, In (channel, CardLink u) (messages e)) <->
                 reported_in_window w (prev_refresh_interval c)
                                    (List.length (queried e)) u) /\
      (forall channel since, In (channel, Header since) (messages e) ->
         exists n, (n < List.length (queried e))%nat /\ status (w n) = 200 /\
                   since = (header_now (w n) - prev_refresh_interval c)%Q)).
Proof.
  split; [exact in_window_spec|].
  split; [intros minutes c; cbn; repeat split; reflexivity|].
  split; [exact poll_cycle_quiet|].
  split; [exact step_prev|].
  split; [reflexivity|].
  split.
  - intros w minutes c.
    pose proof (poll_cycle_commits w (fst (set_refresh_interval minutes c))) as H.
    destruct (poll_cycle (fun n => quiet (w n)) (fst (set_refresh_interval minutes c)))
      as [e|x]; [|exact I].
    rewrite H. split; [reflexivity|].
    intros now a. apply in_window_spec.
  - split; [exact collect_cards_window | exact poll_cycle_window].
Qed.

(** The interval is shortened from an hour to 5 seconds while the cycle
    awaits its query: the action that is 1000 seconds old is still
    reported. *)
Lemma window_uses_previous_interval_witness :
  exists channel,
    In (channel, CardLink "https://trello.com/c/old")
       [(1, Header (1000 - 3600)%Q); (1, CardLink "https://trello.com/c/old")].
Proof.
  destruct window_uses_previous_interval as (_ & _ & _ & _ & _ & _ & _ & H).
  apply (H shortened_mid_cycle Scenario.one_board
           (mkCycleEnd
              (commit_cycle (fst (set_refresh_interval (1 # 12) Scenario.one_board)))
              [(1, Header (1000 - 3600)%Q); (1, CardLink "https://trello.com/c/old")]
              ["abc"] 2 ((1 # 12) * 60 - 2)%Q)
           eq_refl).
  exists 0%nat, 1000%Q, (mkAction 0 "old"). cbn.
  repeat split; try lia; auto. discriminate.
Defined.

(** ** The order of the actions in an answer *)

(** X13. When every clock reading taken while an answer is processed lies
    between [t0] and [t1], and no action of the answer is dated in the
    stretch from [t0 - prev_refresh_interval] to [t1 - prev_refresh_interval]
    that the edge of the window sweeps meanwhile, the cards collected depend
    neither on the order in which the answer lists its actions nor on the
    readings: they are the cards of the actions dated
    [t1 - prev_refresh_interval] or later, and two such runs over the same
    actions send as many messages. *)
Theorem cards_ignore_order (c : Config) (t0 t1 : Q)
    (readings readings' : list (Q * Action)) :
  Permutation (map snd readings) (map snd readings') ->
  (forall x, In x readings \/ In x readings' -> (t0 <= fst x <= t1)%Q) ->
  (forall a, In a (map snd readings) ->
             (t1 - prev_refresh_interval c <= date a)%Q \/
             (date a < t0 - prev_refresh_interval c)%Q) ->
  (forall u, In u (collect_cards c readings []) <->
             exists a, In a (map snd readings) /\ card_url a = u /\
                       (t1 - prev_refresh_interval c <= date a)%Q) /\
  (forall u, In u (collect_cards c readings []) <-> In u (collect_cards c readings' [])) /\
  List.length (collect_cards c readings []) = List.length (collect_cards c readings' []) /\
  forall channel io io',
    board_actions io = readings -> board_actions io' = readings' ->
    List.length (board_messages channel io c) = List.length (board_messages channel io' c).
Proof.
  intros Hp Hc He.
  assert (K : forall rs,
             (forall x, In x rs -> (t0 <= fst x <= t1)%Q) ->
             (forall a, In a (map snd rs) ->
                        (t1 - prev_refresh_interval c <= date a)%Q \/
                        (date a < t0 - prev_refresh_interval c)%Q) ->
             forall u, In u (collect_cards c rs []) <->
                       exists a, In a (map snd rs) /\ card_url a = u /\
                                 (t1 - prev_refresh_interval c <= date a)%Q).
  { intros rs Hr Ha u. rewrite collect_cards_window. split.
    - intros (now & a & Hx & E & W). exists a.
      assert (Hin : In a (map snd rs)) by (apply in_map_iff; exists (now, a); auto).
      split; [exact Hin|]. split; [exact E|].
      pose proof (Hr (now, a) Hx) as B. cbn [fst] in B.
      destruct (Ha a Hin) as [L | L]; [exact L | lra].
    - intros (a & Hin & E & W). apply in_map_iff in Hin.
      destruct Hin as ((now, a') & Ea & Hx). cbn [snd] in Ea. subst a'.
      pose proof (Hr (now, a) Hx) as B. cbn [fst] in B.
      exists now, a. repeat split; auto. lra. }
  assert (K1 := K readings (fun x Hx => Hc x (or_introl Hx)) He).
  assert (K2 := K readings' (fun x Hx => Hc x (or_intror Hx))
                  (fun a Ha => He a (Permutation_in a (Permutation_sym Hp) Ha))).
  assert (I : forall u, In u (collect_cards c readings []) <->
                        In u (collect_cards c readings' [])).
  { intros u. rewrite K1, K2. split; intros (a & Hin & R); exists a; (split; [|exact R]).
    - exact (Permutation_in a Hp Hin).
    - exact (Permutation_in a (Permutation_sym Hp) Hin). }
  assert (L : List.length (collect_cards c readings []) =
              List.length (collect_cards c readings' [])).
  { apply same_elements_length; [| |exact I]; apply collect_cards_NoDup; constructor. }
  split; [exact K1|]. split; [exact I|]. split; [exact L|].
  intros channel io io' E E'. rewrite !board_messages_length, E, E'.
  destruct (collect_cards c readings []), (collect_cards c readings' []);
    simpl in L; try discriminate; auto.
Qed.

Lemma cards_ignore_order_witness :
  let readings := [(1000%Q, mkAction 990 "card1"); (1001%Q, mkAction 991 "card2")] in
  let readings' := [((2001 # 2)%Q, mkAction 991 "card2"); (1001%Q, mkAction 990 "card1")] in
  (forall u, In u (collect_cards Scenario.one_board readings []) <->
             exists a, In a (map snd readings) /\ card_url a = u /\
                       (1001 - prev_refresh_interval Scenario.one_board <= date a)%Q) /\
  (forall u, In u (collect_cards Scenario.one_board readings []) <->
             In u (collect_cards Scenario.one_board readings' [])) /\
  List.length (collect_cards Scenario.one_board readings []) =
  List.length (collect_cards Scenario.one_board readings' []) /\
  forall channel io io',
    board_actions io = readings -> board_actions io' = readings' ->
    List.length (board_messages channel io Scenario.one_board) =
    List.length (board_messages channel io' Scenario.one_board).
Proof.
  apply (cards_ignore_order Scenario.one_board 1000 1001
           [(1000%Q, mkAction 990 "card1"); (1001%Q, mkAction 991 "card2")]
           [((2001 # 2)%Q, mkAction 991 "card2"); (1001%Q, mkAction 990 "card1")]).
  - apply perm_swap.
  - intros x [H | H]; simpl in H; destruct H as [<- | [<- | []]]; cbn; split; discriminate.
  - intros a H. simpl in H. destruct H as [<- | [<- | []]]; left; cbn; discriminate.
Defined.
